(** * infostop: stop-location detection ([infostop/detect.py])

    A shallow embedding of [best_partition] and [run_infomap] together with
    the properties of the pipeline that the specification states.

    Layout of the development:
    - [Numpy]: the float64 values, arrays and numpy primitives the two
      functions use, and Python's exceptions, list indexing and sets;
    - [Detect]: the two functions of [detect.py], written in a state and
      error monad over a heap of arrays;
    - the lemmas and theorems about them. *)

From Stdlib Require Import ZArith QArith Qabs Lqa Lia List String.
From stdpp Require Import base gmap list strings sorting.

(** ** Python exceptions and the two monads *)

Inductive exn :=
  | AssertionError (msg : string)
  | Exception (msg : string)
  | ValueError
  | IndexError
  | SystemError.

Inductive result (A : Type) :=
  | Ok (a : A)
  | Raise (e : exn).
Arguments Ok {A} a.
Arguments Raise {A} e.

Global Instance result_ret : MRet result := λ A a, Ok a.
Global Instance result_bind : MBind result :=
  λ A B f m, match m with Ok a => f a | Raise e => Raise e end.

Definition is_raise {A} (r : result A) : Prop := ∃ e, r = Raise e.

(** [assert b] *)
Definition py_assert (b : bool) : result unit :=
  if b then Ok tt else Raise (AssertionError ""%string).

(** [try: body / except AssertionError: raise AssertionError(msg)]: only an
    AssertionError is caught; any other exception passes through. *)
Definition except_AssertionError (body : result unit) (msg : string) : result unit :=
  match body with
  | Raise (AssertionError _) => Raise (AssertionError msg)
  | r => r
  end.

Module Numpy.

(** *** float64

    The code compares floats and never does arithmetic on them, so a float
    is modelled by the value it denotes: a rational, an infinity, or NaN.
    Every comparison with NaN is false. *)
Inductive float64 := NaN | NegInf | Real (q : Q) | PosInf.

Definition f_ltb (x y : float64) : bool :=
  match x, y with
  | NaN, _ | _, NaN => false
  | NegInf, NegInf => false
  | NegInf, _ => true
  | Real _, NegInf => false
  | Real p, Real q => match (p ?= q)%Q with Lt => true | _ => false end
  | Real _, PosInf => true
  | PosInf, _ => false
  end.

Definition f_leb (x y : float64) : bool :=
  match x, y with
  | NaN, _ | _, NaN => false
  | NegInf, _ => true
  | Real _, NegInf => false
  | Real p, Real q => match (p ?= q)%Q with Gt => false | _ => true end
  | Real _, PosInf => true
  | PosInf, PosInf => true
  | PosInf, _ => false
  end.

Definition of_int (z : Z) : float64 := Real (inject_Z z).

(** [np.minimum], [np.maximum]: NaN propagates. *)
Definition np_minimum (x y : float64) : float64 :=
  match x, y with
  | NaN, _ | _, NaN => NaN
  | _, _ => if f_ltb y x then y else x
  end.

Definition np_maximum (x y : float64) : float64 :=
  match x, y with
  | NaN, _ | _, NaN => NaN
  | _, _ => if f_ltb x y then y else x
  end.

(** [np.min], [np.max] of a one-dimensional array: a reduction, which has
    no identity and raises ValueError on an empty array. *)
Definition np_min (v : list float64) : result float64 :=
  match v with
  | [] => Raise ValueError
  | x :: xs => Ok (foldl np_minimum x xs)
  end.

Definition np_max (v : list float64) : result float64 :=
  match v with
  | [] => Raise ValueError
  | x :: xs => Ok (foldl np_maximum x xs)
  end.

Definition np_all (v : list bool) : bool := forallb id v.

(** *** Two-dimensional arrays

    [shape[1]] is kept apart from the rows: an array with no row still has
    a column count. *)
Record ndarray := mk_ndarray { ncols : nat; rows : list (list float64) }.

Definition shape0 (a : ndarray) : nat := length (rows a).

Definition col (k : nat) (a : ndarray) : list float64 :=
  map (λ r, default NaN (r !! k)) (rows a).

(** [a[:, k]] *)
Definition column (k : nat) (a : ndarray) : result (list float64) :=
  if decide (k < ncols a) then Ok (col k a) else Raise IndexError.

Definition get2 (a : ndarray) (i j : nat) : float64 :=
  default NaN (rows a !! i ≫= λ r, r !! j).

Definition set2 (a : ndarray) (i j : nat) (v : float64) : ndarray :=
  mk_ndarray (ncols a) (alter (λ r, <[j := v]> r) i (rows a)).

(** [np.zeros((n, m)) * np.nan] *)
Definition np_full_nan (n m : nat) : ndarray :=
  mk_ndarray m (replicate n (replicate m NaN)).

(** [np.triu_indices(n, k)]: the pairs [(i, j)] with [i + k <= j < n], row
    by row. *)
Definition np_triu_indices (n k : nat) : list (nat * nat) :=
  i ← seq 0 n; j ← seq (i + k) (n - (i + k)); [(i, j)].

(** [a[idx] = vals]: the values are written in order; one value is
    broadcast to every index; any other length mismatch raises. *)
Definition setitem2 (a : ndarray) (idx : list (nat * nat)) (vals : list float64)
  : result ndarray :=
  let write := foldl (λ a (p : nat * nat * float64), set2 a p.1.1 p.1.2 p.2) a in
  if decide (length vals = length idx) then Ok (write (zip idx vals))
  else match vals with
       | [v] => Ok (write (zip idx (replicate (length idx) v)))
       | _ => Raise ValueError
       end.

(** [np.column_stack(np.where(a < r))]: the index pairs of the entries
    below [r], in row-major order. *)
Definition np_where_lt (a : ndarray) (r : float64) : list (nat * nat) :=
  i ← seq 0 (shape0 a); j ← seq 0 (ncols a);
  if f_ltb (get2 a i j) r then [(i, j)] else [].

(** [edges.flatten()] *)
Definition flatten (edges : list (nat * nat)) : list nat :=
  p ← edges; [p.1; p.2].

(** [np.unique]: sorted, without repetition. *)
Fixpoint insert_unique (n : nat) (l : list nat) : list nat :=
  match l with
  | [] => [n]
  | m :: l' =>
      if (n <? m)%nat then n :: l
      else if (n =? m)%nat then l
      else m :: insert_unique n l'
  end.

Definition np_unique (l : list nat) : list nat := foldr insert_unique [] l.

(** [np.hstack([a, times.reshape(-1, 1)])] *)
Definition np_hstack_column (a : ndarray) (times : list float64) : ndarray :=
  mk_ndarray (ncols a + 1) (zip_with (λ r t, r ++ [t]) (rows a) times).

(** *** Python lists, [max] and sets *)

(** [l[i]], with negative indices counted from the end. *)
Definition py_getitem {A} (l : list A) (i : Z) : result A :=
  let n := Z.of_nat (length l) in
  let i' := if (i <? 0)%Z then (i + n)%Z else i in
  if ((0 <=? i') && (i' <? n))%Z
  then match l !! Z.to_nat i' with Some x => Ok x | None => Raise IndexError end
  else Raise IndexError.

(** [max(l)] *)
Definition py_max (l : list Z) : result Z :=
  match l with
  | [] => Raise ValueError
  | x :: xs => Ok (foldl Z.max x xs)
  end.

(** [range(a, a + n)] *)
Definition py_range (a : Z) (n : nat) : list Z :=
  map (λ k, (a + Z.of_nat k)%Z) (seq 0 n).

(** Python does not fix the order in which a set is iterated; it belongs
    to the runtime. [set_iter l] is the order in which a set holding the
    distinct elements [l] (given in the order they were inserted) yields
    them. *)
Class PyRuntime := { set_iter : list nat → list nat }.

(** [set(list(range(c))).difference(set(nodes))], as the list of its
    elements in iteration order. *)
Definition py_set_difference `{PyRuntime} (c : nat) (nodes : list nat) : list nat :=
  set_iter (filter (λ n, n ∉ nodes) (seq 0 c)).

(** CPython keeps a set in an open-addressing table and iterates it slot
    by slot. An int hashes to itself. Unless [nodes] holds fewer than a
    quarter of the [c] events, [difference] fills a new set element by
    element; with fewer than five elements that set starts from, and
    stays in, a table of eight slots, where [k] lands in slot [k mod 8]
    when the residues are distinct. [cpython_set_iter] is that order; on
    larger sets or colliding residues it is still a permutation, but not
    CPython's probing. *)
Definition cpython_slot (k : nat) : nat := k mod 8.

Fixpoint insert_by_slot (k : nat) (l : list nat) : list nat :=
  match l with
  | [] => [k]
  | m :: l' =>
      if (cpython_slot k <? cpython_slot m)%nat then k :: l
      else m :: insert_by_slot k l'
  end.

Definition cpython_set_iter (l : list nat) : list nat :=
  foldl (λ t k, insert_by_slot k t) [] l.

Definition CPython : PyRuntime := {| set_iter := cpython_set_iter |}.

End Numpy.

Export Numpy.

(** ** The heap of arrays

    numpy arrays are mutable objects that Python passes by reference. The
    heap holds every array that the two functions can alias or write:
    the caller's [coords], the matrix [D] that is filled in place, and
    the array that [np.hstack] builds. *)
Abbreviation loc := nat (only parsing).
Abbreviation heap := (list ndarray) (only parsing).

Definition M (A : Type) : Type := heap → result A * heap.

Global Instance M_ret : MRet M := λ A a h, (Ok a, h).
Global Instance M_bind : MBind M :=
  λ A B f m h,
    match m h with
    | (Ok a, h') => f a h'
    | (Raise e, h') => (Raise e, h')
    end.

Definition lift {A} (r : result A) : M A := λ h, (r, h).

Definition raise {A} (e : exn) : M A := lift (Raise e).

(** Reading through a reference. *)
Definition load (l : loc) : M ndarray :=
  λ h, match h !! l with
       | Some a => (Ok a, h)
       | None => (Raise SystemError, h)
       end.

(** A new array object. *)
Definition alloc (a : ndarray) : M loc :=
  λ h, (Ok (length h), h ++ [a]).

(** [a[idx] = vals] on the array behind a reference: written in place. *)
Definition setitem (l : loc) (idx : list (nat * nat)) (vals : list float64) : M unit :=
  λ h, match h !! l with
       | Some a =>
           match setitem2 a idx vals with
           | Ok a' => (Ok tt, <[l := a']> h)
           | Raise e => (Raise e, h)
           end
       | None => (Raise SystemError, h)
       end.

(** ** The functions of [infostop.utils]

    [detect.py] calls five functions of [infostop.utils] and compares its
    [distance_function] argument with a sixth. They are parameters of the
    model. Each may raise, and each reads its array arguments without
    writing to them. The community oracle is the only one with a state of
    its own (its random choices), which [oracle_state] stands for. *)
Inductive distance_function := haversine | euclidean | user_defined (id : nat).

(** [distance_function == utils.haversine] *)
Definition is_haversine (df : distance_function) : bool :=
  match df with haversine => true | _ => false end.

Class Utils := {
  groups : Type;
  intervals : Type;
  oracle_state : Type;
  group_time_distance :
    ndarray → float64 → float64 → float64 → distance_function → result groups;
  get_stationary_events : groups → Z → result (ndarray * list Z);
  general_pdist : ndarray → distance_function → result (list float64);
  infomap_communities :
    oracle_state → list nat → list (nat * nat) → result (gmap nat Z);
  compute_intervals : ndarray → list Z → float64 → result intervals;
}.

Module Detect.

Section detect.
Context `{U : Utils} `{R : PyRuntime}.

(** What [best_partition] returns: an array of labels, or the intervals
    of [utils.compute_intervals]. *)
Inductive output :=
  | LabelArray (labels : list Z)
  | Intervals (iv : intervals).

(** The body of either [try] of lines 65-74: the two assertions on a
    coordinate column. *)
Definition bounds_check (v : list float64) (lo hi : Z) : result unit :=
  least ← np_min v; py_assert (f_ltb (of_int lo) least);;
  greatest ← np_max v; py_assert (f_ltb greatest (of_int hi)).

(** Lines 52-74, the assertions. *)
Definition validate (coords : ndarray) (df : distance_function) : result unit :=
  except_AssertionError
    (py_assert (bool_decide (ncols coords ∈ [2; 3])))
    "Number of columns must be 2 or 3";;
  (if decide (ncols coords = 3) then
     ts ← column 2 coords;
     except_AssertionError
       (py_assert (np_all (zip_with f_leb (removelast ts) (tail ts))))
       "Timestamps must be ordered"
   else Ok tt);;
  if is_haversine df then
    lat ← column 0 coords;
    except_AssertionError (bounds_check lat (-90) 90)
      "Column 0 (latitude) must have values between -90 and 90";;
    lon ← column 1 coords;
    except_AssertionError (bounds_check lon (-180) 180)
      "Column 1 (longitude) must have values between -180 and 180"
  else Ok tt.

(** Lines 93-112, NETWORK: the matrix [D] is allocated, filled in place
    through its upper triangle, and read back; then the edges, the nodes
    and the singletons. *)
Definition build_graph (r2 : float64) (c : nat) (pairwise_dist : list float64)
  : M (list (nat * nat) * list nat * list nat) :=
  D ← alloc (np_full_nan c c);
  setitem D (np_triu_indices c 1) pairwise_dist;;
  Dv ← load D;
  let edges := np_where_lt Dv r2 in
  let nodes := np_unique (flatten edges) in
  let singleton_nodes := py_set_difference c nodes in
  mret (edges, nodes, singleton_nodes).

(** Lines 125-129: [partition.update(dict(zip(singleton_nodes, range(...))))].
    The pairs are written in order, a later one replacing an earlier one
    with the same key. *)
Definition label_singletons (partition : gmap nat Z) (singleton_nodes : list nat)
  : result (gmap nat Z) :=
  max_label ← py_max ((map_to_list partition).*2);
  mret (foldl (λ (m : gmap nat Z) (kv : nat * Z), <[kv.1 := kv.2]> m) partition
          (zip singleton_nodes
             (py_range (max_label + 1) (length singleton_nodes)))).

(** Lines 132-135 *)
Definition event_labels (partition : gmap nat Z) (c : nat) : list Z :=
  map (λ n, default (-1)%Z (partition !! n)) (seq 0 c).

(** Lines 119-135, INFER LABELS: the oracle's partition, the singleton
    policy, and the vector of one label per event. *)
Definition infer_labels (w : oracle_state) (nodes : list nat)
    (edges : list (nat * nat)) (singleton_nodes : list nat) (c : nat)
    (label_singleton : bool) : result (list Z) :=
  partition ← infomap_communities w nodes edges;
  partition ← (if label_singleton
               then label_singletons partition singleton_nodes
               else Ok partition);
  mret (event_labels partition c).

(** Lines 144-145 *)
Definition project_labels (labels : list Z) (event_map : list Z) : result (list Z) :=
  let labels := labels ++ [(-1)%Z] in
  mapM (py_getitem labels) event_map.

(** Lines 148-150: the array handed to [utils.compute_intervals]. With two
    columns a new array is built and the local name rebound to it. *)
Definition with_timestamps (coords : loc) : M loc :=
  a ← load coords;
  if decide (ncols a = 2) then
    let times := map (λ k, of_int (Z.of_nat k)) (seq 0 (shape0 a)) in
    alloc (np_hstack_column a times)
  else mret coords.

(** Lines 141-153, POSTPROCESS *)
Definition postprocess (coords : loc) (labels : list Z) (event_map : list Z)
    (return_intervals : bool) (max_time_between : float64) : M output :=
  coord_labels ← lift (project_labels labels event_map);
  if return_intervals then
    coords ← with_timestamps coords;
    a ← load coords;
    iv ← lift (compute_intervals a coord_labels max_time_between);
    mret (Intervals iv)
  else mret (LabelArray coord_labels).

Definition insufficient_graph : exn :=
  Exception "Found only 1 edge. Provide longer trajectory or increase `r2`.".

Definition run_infomap (w : oracle_state) (r2 : float64) (coords : loc)
    (stop_events : ndarray) (df : distance_function) (event_map : list Z)
    (label_singleton return_medoid_labels return_intervals : bool)
    (max_time_between : float64) : M output :=
  pairwise_dist ← lift (general_pdist stop_events df);
  let c := shape0 stop_events in
  '(edges, nodes, singleton_nodes) ← build_graph r2 c pairwise_dist;
  if decide (length edges < 1) then raise insufficient_graph
  else
    labels ← lift (infer_labels w nodes edges singleton_nodes c label_singleton);
    if return_medoid_labels then mret (LabelArray labels)
    else postprocess coords labels event_map return_intervals max_time_between.

Definition best_partition (w : oracle_state) (coords : loc) (r1 r2 : float64)
    (return_medoid_labels label_singleton : bool)
    (min_staying_time max_time_between : float64) (df : distance_function)
    (return_intervals : bool) (min_size : Z) : M output :=
  a ← load coords;
  lift (validate a df);;
  groups ← lift (group_time_distance a r1 min_staying_time max_time_between df);
  '(stop_events, event_map) ← lift (get_stationary_events groups min_size);
  run_infomap w r2 coords stop_events df event_map label_singleton
    return_medoid_labels return_intervals max_time_between.

End detect.

End Detect.

Export Detect.

(** ** A runnable instance of the interface

    [infostop.utils] is not part of [detect.py]. To run the model on
    concrete trajectories, [Fixture] supplies a small deterministic
    instance of [Utils] on exact rational coordinates: the taxicab
    distance, segments anchored at their first sample, connected
    components as communities (whatever the seed), and runs of equal
    labels as intervals. *)
Module Fixture.

Definition taxicab (p q : list float64) : float64 :=
  match p, q with
  | Real x1 :: Real y1 :: _, Real x2 :: Real y2 :: _ =>
      Real (Qabs (x1 - x2) + Qabs (y1 - y2))
  | _, _ => NaN
  end.

Fixpoint segment (r1 : float64) (current : list (list float64))
    (rest : list (list float64)) : list (list (list float64)) :=
  match rest with
  | [] => [current]
  | p :: rest' =>
      if f_ltb (taxicab (default [] (head current)) p) r1
      then segment r1 (current ++ [p]) rest'
      else current :: segment r1 [p] rest'
  end.

Definition fx_group_time_distance (a : ndarray) (r1 _ _ : float64)
    (_ : distance_function) : result (list (list (list float64))) :=
  match rows a with
  | [] => Raise IndexError
  | p :: rest => Ok (segment r1 [p] rest)
  end.

Fixpoint aggregate (min_size next : Z) (gs : list (list (list float64)))
  : list (list float64) * list Z :=
  match gs with
  | [] => ([], [])
  | g :: gs' =>
      if (min_size <=? Z.of_nat (length g))%Z then
        let r := aggregate min_size (next + 1) gs' in
        (take 2 (default [] (head g)) :: r.1, replicate (length g) next ++ r.2)
      else
        let r := aggregate min_size next gs' in
        (r.1, replicate (length g) (-1)%Z ++ r.2)
  end.

Definition fx_get_stationary_events (gs : list (list (list float64)))
    (min_size : Z) : result (ndarray * list Z) :=
  let r := aggregate min_size 0 gs in Ok (mk_ndarray 2 r.1, r.2).

Definition fx_general_pdist (ev : ndarray) (_ : distance_function)
  : result (list float64) :=
  Ok (map (λ p : nat * nat,
             taxicab (default [] (rows ev !! p.1)) (default [] (rows ev !! p.2)))
        (np_triu_indices (shape0 ev) 1)).

(** One round of label propagation: every node takes the least label
    among its own and its neighbours'. *)
Definition propagate (edges : list (nat * nat)) (lab : nat → nat) (n : nat) : nat :=
  foldl (λ m (e : nat * nat),
           if (n =? e.1)%nat then Nat.min m (lab e.2)
           else if (n =? e.2)%nat then Nat.min m (lab e.1)
           else m)
        (lab n) edges.

Definition fx_infomap_communities (_ : nat) (nodes : list nat)
    (edges : list (nat * nat)) : result (gmap nat Z) :=
  let lab := Nat.iter (length nodes) (propagate edges) id in
  Ok (list_to_map ((λ n, (n, Z.of_nat (lab n))) <$> nodes)).

Fixpoint runs (label : Z) (start stop : float64)
    (rest : list (Z * float64)) : list (Z * float64 * float64) :=
  match rest with
  | [] => [(label, start, stop)]
  | (l, t) :: rest' =>
      if (l =? label)%Z then runs label start t rest'
      else (label, start, stop) :: runs l t t rest'
  end.

Definition fx_compute_intervals (a : ndarray) (labels : list Z) (_ : float64)
  : result (list (Z * float64 * float64)) :=
  match zip labels (col 2 a) with
  | [] => Ok []
  | (l, t) :: rest => Ok (runs l t t rest)
  end.

Definition utils : Utils := {|
  group_time_distance := fx_group_time_distance;
  get_stationary_events := fx_get_stationary_events;
  general_pdist := fx_general_pdist;
  infomap_communities := fx_infomap_communities;
  compute_intervals := fx_compute_intervals;
|}.

Definition point (x y : Z) : list float64 := [of_int x; of_int y].

(** Two visits to one place, an excursion in between, and a stop visited
    once: three stationary events, one edge, one singleton. *)
Definition trajectory : ndarray :=
  mk_ndarray 2
    [point 0 0; point 1 0; point 0 1;
     point 500 0;
     point 900 0; point 901 0;
     point 1 1; point 0 0].

(** Nine stationary events of two samples each along a line: events 0 and
    2..7 one unit apart, events 1 and 8 far from every other. *)
Definition nine_stops : ndarray :=
  mk_ndarray 2
    (x ← [0; 100; 1; 2; 3; 4; 5; 6; 200]%Z; [point (10 * x) 0; point (10 * x) 1]).

(** The graph of [nine_stops] at [r2 = 15]: events 0 and 2..7 in
    one community, events 1 and 8 without an edge. *)
Definition nine_nodes : list nat := [0; 2; 3; 4; 5; 6; 7].

Definition nine_partition : gmap nat Z :=
  list_to_map ((λ n, (n, 0%Z)) <$> nine_nodes).

(** Variants of [utils] with another distance helper and another oracle:
    one that returns a distance too few, one that labels nothing. *)
Definition utils_with
    (pdist : ndarray → distance_function → result (list float64))
    (oracle : nat → list nat → list (nat * nat) → result (gmap nat Z)) : Utils := {|
  group_time_distance := fx_group_time_distance;
  get_stationary_events := fx_get_stationary_events;
  general_pdist := pdist;
  infomap_communities := oracle;
  compute_intervals := fx_compute_intervals;
|}.

Definition short_pdist (ev : ndarray) (df : distance_function) : result (list float64) :=
  match fx_general_pdist ev df with
  | Ok pd => Ok (removelast pd)
  | Raise e => Raise e
  end.

Definition silent_oracle (_ : nat) (_ : list nat) (_ : list (nat * nat))
  : result (gmap nat Z) := Ok ∅.

(** The three stationary events of [trajectory] and its EventMap. *)
Definition three_stops : ndarray :=
  mk_ndarray 2 [point 0 0; point 900 0; point 1 1].

Definition three_stops_map : list Z := [0; 0; 0; -1; 1; 1; 2; 2]%Z.

(** An oracle whose answer depends on its state: it numbers the
    communities from [seed / 2], so that seeds 0 and 1 answer alike and
    seed 2 does not. *)
Definition seeded_oracle (seed : nat) (nodes : list nat)
    (edges : list (nat * nat)) : result (gmap nat Z) :=
  let lab := Nat.iter (length nodes) (propagate edges) id in
  Ok (list_to_map ((λ n, (n, Z.of_nat (lab n + seed / 2))) <$> nodes)).

(** A runtime whose sets yield their elements in the order of insertion. *)
Definition insertion_ordered : PyRuntime := {| set_iter := id |}.

End Fixture.

(** ** Vocabulary of the statements *)

Global Instance result_fmap : FMap result :=
  λ A B f m, match m with Ok a => Ok (f a) | Raise e => Raise e end.

(** The preconditions of section 6 of the specification, in its words. *)
Definition in_open_range (lo hi : Z) (x : float64) : Prop :=
  f_ltb (of_int lo) x = true ∧ f_ltb x (of_int hi) = true.

Definition nondecreasing (ts : list float64) : Prop :=
  ∀ i x y, ts !! i = Some x → ts !! S i = Some y → f_leb x y = true.

Definition preconditions (coords : ndarray) (df : distance_function) : Prop :=
  (ncols coords = 2 ∨ ncols coords = 3) ∧
  (ncols coords = 3 → nondecreasing (col 2 coords)) ∧
  (df = haversine →
     Forall (in_open_range (-90) 90) (col 0 coords) ∧
     Forall (in_open_range (-180) 180) (col 1 coords)).

(** An array of [n] rows of [m] entries each. *)
Definition has_dims (a : ndarray) (n m : nat) : Prop :=
  shape0 a = n ∧ Forall (λ r, length r = m) (rows a).

(** The writes of [setitem2], one after the other. *)
Definition write (a : ndarray) (l : list (nat * nat * float64)) : ndarray :=
  foldl (λ a (p : nat * nat * float64), set2 a p.1.1 p.1.2 p.2) a l.

(** The matrix [D] once the distances are written into its upper
    triangle, and the graph read off it. *)
Definition distance_matrix (c : nat) (pairwise_dist : list float64) : ndarray :=
  write (np_full_nan c c) (zip (np_triu_indices c 1) pairwise_dist).

Definition proximity_edges (r2 : float64) (c : nat) (pairwise_dist : list float64)
  : list (nat * nat) :=
  np_where_lt (distance_matrix c pairwise_dist) r2.

Definition connected_nodes (r2 : float64) (c : nat) (pairwise_dist : list float64)
  : list nat :=
  np_unique (flatten (proximity_edges r2 c pairwise_dist)).

Definition singleton_events `{PyRuntime} (r2 : float64) (c : nat)
    (pairwise_dist : list float64) : list nat :=
  py_set_difference c (connected_nodes r2 c pairwise_dist).

(** Modelled from the spec: [utils.general_pdist] returns one distance per
    pair of the upper triangle (section 4.3). *)
Definition condensed (c : nat) (pairwise_dist : list float64) : Prop :=
  length pairwise_dist = length (np_triu_indices c 1).

(** The distance that [general_pdist] reports for the pair [(i, j)]. *)
Definition pair_distance (c : nat) (pairwise_dist : list float64)
    (i j : nat) (d : float64) : Prop :=
  ∃ k, np_triu_indices c 1 !! k = Some (i, j) ∧ pairwise_dist !! k = Some d.

(** Modelled from the spec: every entry of the EventMap that
    [utils.get_stationary_events] returns is the sentinel or an event index
    (section 3). *)
Definition valid_event_map (c : nat) (event_map : list Z) : Prop :=
  Forall (λ e, e = (-1)%Z ∨ (0 ≤ e < Z.of_nat c)%Z) event_map.

(** Modelled from the spec: [utils.infomap_communities] labels exactly the
    nodes it is given, with non-negative ids (sections 3 and 4.4). *)
Definition oracle_contract (nodes : list nat) (partition : gmap nat Z) : Prop :=
  dom partition = list_to_set nodes ∧
  Forall (λ v, (0 ≤ v)%Z) (map_to_list partition).*2.

(** The writes of [partition.update], one after the other. *)
Definition update_all (m : gmap nat Z) (l : list (nat * Z)) : gmap nat Z :=
  foldl (λ (m : gmap nat Z) (kv : nat * Z), <[kv.1 := kv.2]> m) m l.

(** The label that section 4.5 gives the sample whose EventMap entry is
    [e]. *)
Definition sample_label (partition : gmap nat Z) (e : Z) : Z :=
  if decide (e = (-1)%Z) then (-1)%Z
  else default (-1)%Z (partition !! Z.to_nat e).

(** The partition once every singleton has its own id (lines 125-129). *)
Definition relabelled (partition : gmap nat Z) (singleton_nodes : list nat)
    (max_label : Z) : gmap nat Z :=
  update_all partition
    (zip singleton_nodes (py_range (max_label + 1) (length singleton_nodes))).

(** The partition that the labels are read from. *)
Definition final_partition (label_singleton : bool) (partition : gmap nat Z)
    (singleton_nodes : list nat) (max_label : Z) : gmap nat Z :=
  if label_singleton then relabelled partition singleton_nodes max_label
  else partition.

(** Fresh ids handed out along the iteration of the singleton set: the
    [k]-th singleton it yields receives [max_label + 1 + k]. *)
Definition numbered_in_iteration_order (singleton_nodes : list nat)
    (max_label : Z) (partition : gmap nat Z) : Prop :=
  ∀ k s, singleton_nodes !! k = Some s →
         partition !! s = Some (max_label + 1 + Z.of_nat k)%Z.

(** Fresh ids handed out in event-index order, as section 4.5 has it:
    the [k]-th smallest singleton receives [max_label + 1 + k]. *)
Definition numbered_in_event_order (c : nat) (nodes : list nat)
    (max_label : Z) (partition : gmap nat Z) : Prop :=
  ∀ k s, filter (λ n, n ∉ nodes) (seq 0 c) !! k = Some s →
         partition !! s = Some (max_label + 1 + Z.of_nat k)%Z.

(** An exception that neither the oracle nor [compute_intervals] raises. *)
Definition foreign_to_helpers `{Utils} (e : exn) : Prop :=
  (∀ w nodes edges, infomap_communities w nodes edges ≠ Raise e) ∧
  (∀ a labels mtb, compute_intervals a labels mtb ≠ Raise e).

(** A set yields each of its elements once. *)
Definition set_iter_sound `{PyRuntime} : Prop :=
  ∀ l, set_iter l ≡ₚ l.

(** A run never changes or drops an array that is already on the heap. *)
Definition preserves_heap {A} (m : M A) : Prop :=
  ∀ h, ∃ k, (m h).2 = h ++ k.

(** * Properties *)

(** ** The monads *)

Lemma bind_eval {A B} (m : M A) (f : A → M B) h :
  (m ≫= f) h =
  match m h with
  | (Ok a, h') => f a h'
  | (Raise e, h') => (Raise e, h')
  end.
Proof. reflexivity. Qed.

Lemma bind_lift {A B} (r : result A) (f : A → M B) h :
  (lift r ≫= f) h =
  match r with
  | Ok a => f a h
  | Raise e => (Raise e, h)
  end.
Proof. rewrite bind_eval. unfold lift. by destruct r. Qed.

Lemma is_raise_not_ok (r : result unit) : is_raise r ↔ r ≠ Ok tt.
Proof.
  destruct r as [[]|e]; split; try done.
  - by intros [? ?].
  - by exists e.
Qed.

Lemma py_assert_ok b : py_assert b = Ok tt ↔ b = true.
Proof. by destruct b. Qed.

Lemma except_AssertionError_ok body msg :
  except_AssertionError body msg = Ok tt ↔ body = Ok tt.
Proof. destruct body as [[]|[]]; simpl; split; done. Qed.

Lemma seq_ok (a b : result unit) : (a;; b) = Ok tt ↔ a = Ok tt ∧ b = Ok tt.
Proof. destruct a as [[]|]; simpl; [tauto|split; [done|by intros []]]. Qed.

Lemma preserves_heap_lift {A} (r : result A) : preserves_heap (lift r).
Proof. intros h. exists []. by rewrite app_nil_r. Qed.

Lemma preserves_heap_ret {A} (a : A) : preserves_heap (mret a : M A).
Proof. intros h. exists []. by rewrite app_nil_r. Qed.

Lemma preserves_heap_load l : preserves_heap (load l).
Proof. intros h. exists []. rewrite app_nil_r. unfold load. by destruct (h !! l). Qed.

Lemma preserves_heap_alloc a : preserves_heap (alloc a).
Proof. intros h. by exists [a]. Qed.

Lemma preserves_heap_bind {A B} (m : M A) (f : A → M B) :
  preserves_heap m → (∀ a, preserves_heap (f a)) → preserves_heap (m ≫= f).
Proof.
  intros Hm Hf h. rewrite bind_eval. destruct (Hm h) as [k Hk].
  destruct (m h) as [[a|e] h']; simpl in Hk; subst h'.
  - destruct (Hf a (h ++ k)) as [k' Hk']. exists (k ++ k').
    by rewrite Hk', app_assoc.
  - by exists k.
Qed.

(** ** float64 *)

Ltac float_cases :=
  simpl;
  repeat (match goal with
          | |- context [(?p ?= ?q)%Q] => destruct (Qcompare_spec p q)
          end; simpl);
  try reflexivity; try lra.

Lemma f_ltb_np_minimum a x y :
  f_ltb a (np_minimum x y) = f_ltb a x && f_ltb a y.
Proof. destruct a, x, y; float_cases. Qed.

Lemma f_ltb_np_maximum a x y :
  f_ltb (np_maximum x y) a = f_ltb x a && f_ltb y a.
Proof. destruct a, x, y; float_cases. Qed.

Lemma np_min_gt a v m :
  np_min v = Ok m → f_ltb a m = true ↔ Forall (λ x, f_ltb a x = true) v.
Proof.
  destruct v as [|x xs]; [done|]. intros [= <-].
  revert x. induction xs as [|y ys IH]; intros x; simpl.
  - split; [by constructor | by inversion 1].
  - rewrite IH, !Forall_cons, f_ltb_np_minimum, andb_true_iff. tauto.
Qed.

Lemma np_max_lt a v m :
  np_max v = Ok m → f_ltb m a = true ↔ Forall (λ x, f_ltb x a = true) v.
Proof.
  destruct v as [|x xs]; [done|]. intros [= <-].
  revert x. induction xs as [|y ys IH]; intros x; simpl.
  - split; [by constructor | by inversion 1].
  - rewrite IH, !Forall_cons, f_ltb_np_maximum, andb_true_iff. tauto.
Qed.

(** ** The assertions *)

Lemma np_all_adjacent ts :
  np_all (zip_with f_leb (removelast ts) (tail ts)) = true ↔ nondecreasing ts.
Proof.
  unfold nondecreasing, np_all. induction ts as [|x [|y ts] IH]; simpl.
  - split; [|done]. by intros _ i x y; rewrite lookup_nil.
  - split; [|done]. intros _ [|i] a b; simpl; [|by rewrite lookup_nil]. done.
  - simpl in IH. rewrite andb_true_iff, IH. split.
    + intros [Hxy H] [|i] a b; simpl; [by intros [= <-] [= <-]|]. apply H.
    + intros H. split; [by apply (H 0)|]. intros i a b. apply (H (S i)).
Qed.

Lemma bounds_check_ok v lo hi :
  v ≠ [] → bounds_check v lo hi = Ok tt ↔ Forall (in_open_range lo hi) v.
Proof.
  intros Hv. unfold bounds_check, in_open_range. rewrite Forall_and.
  destruct v as [|x xs]; [done|].
  pose proof (np_min_gt (of_int lo) (x :: xs) (foldl np_minimum x xs) eq_refl) as <-.
  pose proof (np_max_lt (of_int hi) (x :: xs) (foldl np_maximum x xs) eq_refl) as <-.
  cbn [np_min np_max mbind result_bind].
  destruct (f_ltb (of_int lo) (foldl np_minimum x xs)); cbn [py_assert mbind result_bind];
    [|split; [done|by intros []]].
  rewrite py_assert_ok. tauto.
Qed.

Lemma and_iff_under (A B C B' C' : Prop) :
  (A → (B ↔ B')) → (A → (C ↔ C')) → (A ∧ B ∧ C ↔ A ∧ B' ∧ C').
Proof. tauto. Qed.

Lemma two_or_three (n : nat) : n ∈ [2; 3] ↔ n = 2 ∨ n = 3.
Proof. rewrite !elem_of_cons, elem_of_nil. tauto. Qed.

Lemma validate_ok_iff coords df :
  rows coords ≠ [] ∨ df ≠ haversine →
  validate coords df = Ok tt ↔ preconditions coords df.
Proof.
  intros Hne. unfold validate, preconditions.
  rewrite !seq_ok, except_AssertionError_ok, py_assert_ok, bool_decide_eq_true,
    two_or_three.
  apply and_iff_under; intros Hc.
  - destruct (decide (ncols coords = 3)) as [H3|H3]; [|tauto].
    unfold column. rewrite decide_True by lia. cbn [mbind result_bind].
    rewrite except_AssertionError_ok, py_assert_ok, np_all_adjacent. tauto.
  - destruct df; cbn [is_haversine]; try (split; [done|]; done).
    destruct Hne as [Hne|]; [|done].
    unfold column. rewrite !decide_True by lia. cbn [mbind result_bind].
    rewrite seq_ok, !except_AssertionError_ok, !bounds_check_ok.
    + tauto.
    + unfold col. by destruct (rows coords).
    + unfold col. by destruct (rows coords).
Qed.

(** ** Arrays: reading after writing *)

Lemma has_dims_full_nan n m : has_dims (np_full_nan n m) n m.
Proof.
  split; simpl.
  - unfold shape0. simpl. by rewrite length_replicate.
  - apply Forall_replicate. by rewrite length_replicate.
Qed.

Lemma has_dims_set2 a n m i j v : has_dims a n m → has_dims (set2 a i j v) n m.
Proof.
  intros [Hn Hm]. split; unfold shape0; simpl.
  - by rewrite length_alter.
  - apply Forall_alter; [done|]. intros r _ Hr. by rewrite length_insert.
Qed.

Lemma get2_full_nan n m i j : get2 (np_full_nan n m) i j = NaN.
Proof.
  unfold get2, np_full_nan. simpl.
  destruct (replicate n (replicate m NaN) !! i) as [r|] eqn:Hr; [|done].
  apply lookup_replicate in Hr as [-> _]. simpl.
  destruct (replicate m NaN !! j) as [x|] eqn:Hx; [|done].
  by apply lookup_replicate in Hx as [-> _].
Qed.

Lemma get2_set2_eq a n m i j v :
  has_dims a n m → i < n → j < m → get2 (set2 a i j v) i j = v.
Proof.
  intros [Hn Hm] Hi Hj. unfold get2, set2. simpl.
  destruct (lookup_lt_is_Some_2 (rows a) i) as [r Hr]; [unfold shape0 in Hn; lia|].
  rewrite list_lookup_alter_eq, Hr. simpl.
  rewrite list_lookup_insert_eq; [done|].
  rewrite Forall_lookup in Hm. by rewrite (Hm _ _ Hr).
Qed.

Lemma get2_set2_ne a i j v i' j' :
  (i, j) ≠ (i', j') → get2 (set2 a i j v) i' j' = get2 a i' j'.
Proof.
  intros Hne. unfold get2, set2. simpl.
  destruct (decide (i = i')) as [->|Hi].
  - rewrite list_lookup_alter_eq. destruct (rows a !! i') as [r|]; [|done]. simpl.
    rewrite list_lookup_insert_ne; [done|congruence].
  - by rewrite list_lookup_alter_ne.
Qed.

Lemma has_dims_write l : ∀ a n m, has_dims a n m → has_dims (write a l) n m.
Proof.
  induction l as [|p l IH]; intros a n m Ha; [done|].
  simpl. apply IH. by apply has_dims_set2.
Qed.

Lemma get2_write_notin l : ∀ a i j,
  (i, j) ∉ l.*1 → get2 (write a l) i j = get2 a i j.
Proof.
  induction l as [|[[i0 j0] v0] l IH]; intros a i j Hnot; [done|].
  simpl in *. apply not_elem_of_cons in Hnot as [Hne Hnot].
  rewrite IH by done. apply get2_set2_ne. congruence.
Qed.

Lemma get2_write_in l : ∀ a n m i j v,
  has_dims a n m → NoDup l.*1 → Forall (λ p, p.1.1 < n ∧ p.1.2 < m) l →
  (i, j, v) ∈ l → get2 (write a l) i j = v.
Proof.
  induction l as [|[[i0 j0] v0] l IH]; intros a n m i j v Ha Hnd Hrng Hin.
  { by apply elem_of_nil in Hin. }
  simpl in *. apply NoDup_cons in Hnd as [Hnot Hnd].
  apply Forall_cons in Hrng as [[Hi0 Hj0] Hrng]. simpl in *.
  apply elem_of_cons in Hin as [[= -> -> ->]|Hin].
  - rewrite get2_write_notin by done. by eapply get2_set2_eq.
  - eapply IH; eauto using has_dims_set2.
Qed.

(** ** The upper triangle *)

Lemma elem_of_triu n k i j : (i, j) ∈ np_triu_indices n k ↔ i + k ≤ j < n.
Proof.
  unfold np_triu_indices. rewrite list_elem_of_bind. split.
  - intros (i' & Hj & Hi). apply list_elem_of_bind in Hj as (j' & Hp & Hj).
    apply list_elem_of_singleton in Hp as [= -> ->].
    apply elem_of_seq in Hi, Hj. lia.
  - intros H. exists i. split; [|apply elem_of_seq; lia].
    apply list_elem_of_bind. exists j. split; [by apply list_elem_of_singleton|].
    apply elem_of_seq. lia.
Qed.

Lemma NoDup_pairs (f : nat → list nat) (l : list nat) :
  NoDup l → (∀ i, NoDup (f i)) → NoDup (i ← l; j ← f i; [(i, j)]).
Proof.
  intros Hl Hf. apply NoDup_bind; [|intros i _|done].
  - intros i1 i2 p _ _ H1 H2.
    apply list_elem_of_bind in H1 as (j1 & H1 & _), H2 as (j2 & H2 & _).
    apply list_elem_of_singleton in H1, H2. congruence.
  - apply NoDup_bind; [|intros; apply NoDup_singleton|done].
    intros j1 j2 p _ _ H1 H2. apply list_elem_of_singleton in H1, H2. congruence.
Qed.

Lemma NoDup_triu n k : NoDup (np_triu_indices n k).
Proof. apply NoDup_pairs; intros; apply NoDup_seq. Qed.

(** ** The proximity graph *)

Lemma elem_of_np_where_lt a r i j :
  (i, j) ∈ np_where_lt a r ↔
  i < shape0 a ∧ j < ncols a ∧ f_ltb (get2 a i j) r = true.
Proof.
  unfold np_where_lt. rewrite list_elem_of_bind. split.
  - intros (i' & Hj & Hi). apply list_elem_of_bind in Hj as (j' & Hp & Hj).
    apply elem_of_seq in Hi, Hj.
    destruct (f_ltb (get2 a i' j') r) eqn:Hlt; [|by apply elem_of_nil in Hp].
    apply list_elem_of_singleton in Hp as [= -> ->]. repeat split; [lia|lia|done].
  - intros (Hi & Hj & Hlt). exists i. split; [|apply elem_of_seq; lia].
    apply list_elem_of_bind. exists j. split; [|apply elem_of_seq; lia].
    rewrite Hlt. by apply list_elem_of_singleton.
Qed.

Lemma NoDup_np_where_lt a r : NoDup (np_where_lt a r).
Proof.
  unfold np_where_lt. apply NoDup_bind; [|intros i _|apply NoDup_seq].
  - intros i1 i2 p _ _ H1 H2.
    apply list_elem_of_bind in H1 as (j1 & H1 & _), H2 as (j2 & H2 & _).
    destruct (f_ltb (get2 a i1 j1) r); [|by apply elem_of_nil in H1].
    destruct (f_ltb (get2 a i2 j2) r); [|by apply elem_of_nil in H2].
    apply list_elem_of_singleton in H1, H2. congruence.
  - apply NoDup_bind; [|intros j _|apply NoDup_seq].
    + intros j1 j2 p _ _ H1 H2.
      destruct (f_ltb (get2 a i j1) r); [|by apply elem_of_nil in H1].
      destruct (f_ltb (get2 a i j2) r); [|by apply elem_of_nil in H2].
      apply list_elem_of_singleton in H1, H2. congruence.
    + destruct (f_ltb (get2 a i j) r); [apply NoDup_singleton|apply NoDup_nil_2].
Qed.

Lemma setitem2_distances c pd :
  length pd = length (np_triu_indices c 1) →
  setitem2 (np_full_nan c c) (np_triu_indices c 1) pd = Ok (distance_matrix c pd).
Proof. intros Hlen. unfold setitem2. destruct (decide _); [reflexivity|contradiction]. Qed.

Lemma distance_matrix_dims c pd : has_dims (distance_matrix c pd) c c.
Proof. apply has_dims_write, has_dims_full_nan. Qed.

Lemma ncols_write l : ∀ a, ncols (write a l) = ncols a.
Proof. induction l as [|p l IH]; intros a; [done|]. simpl. by rewrite IH. Qed.

Lemma distance_matrix_ncols c pd : ncols (distance_matrix c pd) = c.
Proof. unfold distance_matrix. by rewrite ncols_write. Qed.

Lemma distance_matrix_upper c pd k i j d :
  length pd = length (np_triu_indices c 1) →
  np_triu_indices c 1 !! k = Some (i, j) → pd !! k = Some d →
  get2 (distance_matrix c pd) i j = d.
Proof.
  intros Hlen Hk Hd. unfold distance_matrix.
  apply (get2_write_in _ _ c c); [apply has_dims_full_nan| | |].
  - rewrite fst_zip by lia. apply NoDup_triu.
  - apply Forall_forall. intros [[i' j'] v] Hin. simpl.
    apply elem_of_zip_l, elem_of_triu in Hin. lia.
  - apply list_elem_of_lookup. exists k.
    apply lookup_zip_with_Some. eauto.
Qed.

Lemma distance_matrix_other c pd i j :
  ¬ (i < j < c) → get2 (distance_matrix c pd) i j = NaN.
Proof.
  intros Hij. unfold distance_matrix. rewrite get2_write_notin.
  - apply get2_full_nan.
  - intros Hin. apply list_elem_of_fmap in Hin as ([[i' j'] v] & [= <- <-] & Hin).
    apply elem_of_zip_l, elem_of_triu in Hin. lia.
Qed.

Section graph.
Context `{R : PyRuntime}.

Lemma build_graph_eval r2 c pd h :
  build_graph r2 c pd h =
  match setitem2 (np_full_nan c c) (np_triu_indices c 1) pd with
  | Ok D =>
      let edges := np_where_lt D r2 in
      let nodes := np_unique (flatten edges) in
      (Ok (edges, nodes, py_set_difference c nodes), h ++ [D])
  | Raise e => (Raise e, h ++ [np_full_nan c c])
  end.
Proof.
  unfold build_graph. rewrite bind_eval. unfold alloc at 1. cbv beta iota.
  rewrite bind_eval. unfold setitem at 1. cbv beta iota.
  rewrite list_lookup_middle by done.
  destruct (setitem2 _ _ _) as [D|e]; [|done].
  rewrite bind_eval. unfold load at 1. cbv beta iota.
  replace (<[length h:=D]> (h ++ [np_full_nan c c])) with (h ++ [D]).
  - by rewrite list_lookup_middle.
  - replace (length h) with (length h + 0) by lia. by rewrite insert_app_r.
Qed.
End graph.

(** ** Nodes and singletons *)

Lemma elem_of_insert_unique n l x : x ∈ insert_unique n l ↔ x = n ∨ x ∈ l.
Proof.
  induction l as [|m l IH]; simpl.
  - rewrite list_elem_of_singleton, elem_of_nil. tauto.
  - destruct (Nat.ltb_spec n m); [by rewrite elem_of_cons|].
    destruct (Nat.eqb_spec n m) as [->|Hne].
    + rewrite !elem_of_cons. tauto.
    + rewrite !elem_of_cons, IH. tauto.
Qed.

Lemma elem_of_np_unique l x : x ∈ np_unique l ↔ x ∈ l.
Proof.
  unfold np_unique. induction l as [|n l IH]; simpl; [done|].
  rewrite elem_of_insert_unique, IH, elem_of_cons. tauto.
Qed.

Lemma elem_of_flatten edges n :
  n ∈ flatten edges ↔ ∃ i j, (i, j) ∈ edges ∧ (n = i ∨ n = j).
Proof.
  unfold flatten. rewrite list_elem_of_bind. split.
  - intros ([i j] & Hn & Hin). exists i, j. split; [done|].
    simpl in Hn. rewrite !elem_of_cons, elem_of_nil in Hn. tauto.
  - intros (i & j & Hin & Hn). exists (i, j). split; [|done].
    simpl. rewrite !elem_of_cons. tauto.
Qed.

Lemma flatten_nil_inv edges : np_unique (flatten edges) = [] → edges = [].
Proof.
  destruct edges as [|[i j] edges]; [done|]. intros Hnil.
  assert (i ∈ np_unique (flatten ((i, j) :: edges))) as Hin.
  { apply elem_of_np_unique, elem_of_flatten. exists i, j.
    split; [apply list_elem_of_here|by left]. }
  rewrite Hnil in Hin. by apply elem_of_nil in Hin.
Qed.

Section singletons.
Context `{R : PyRuntime}.
Hypothesis Hset : set_iter_sound.

Lemma elem_of_py_set_difference c nodes n :
  n ∈ py_set_difference c nodes ↔ n < c ∧ n ∉ nodes.
Proof.
  unfold py_set_difference. rewrite (Hset _), list_elem_of_filter, elem_of_seq.
  intuition lia.
Qed.

Lemma NoDup_py_set_difference c nodes : NoDup (py_set_difference c nodes).
Proof.
  unfold py_set_difference. rewrite (Hset _). apply NoDup_filter, NoDup_seq.
Qed.
End singletons.

Lemma insert_by_slot_perm k l : insert_by_slot k l ≡ₚ k :: l.
Proof.
  induction l as [|m l IH]; simpl; [done|].
  destruct (_ <? _)%nat; [done|]. rewrite IH. apply Permutation_swap.
Qed.

Lemma cpython_set_iter_sound : @set_iter_sound CPython.
Proof.
  intros l. simpl. unfold cpython_set_iter.
  rewrite <- (app_nil_r l) at 2. generalize (@nil nat).
  induction l as [|k l IH]; intros t; simpl; [done|].
  rewrite IH, insert_by_slot_perm. by rewrite Permutation_middle.
Qed.

(** ** Labels *)

Lemma foldl_max_spec xs : ∀ x,
  foldl Z.max x xs ∈ x :: xs ∧ ∀ z, z ∈ x :: xs → (z ≤ foldl Z.max x xs)%Z.
Proof.
  induction xs as [|y ys IH]; intros x; simpl.
  - split; [apply list_elem_of_here|]. intros z Hz.
    apply list_elem_of_singleton in Hz. lia.
  - destruct (IH (Z.max x y)) as [Hin Hle].
    pose proof (Hle _ (list_elem_of_here _ _)) as Hxy. split.
    + apply elem_of_cons in Hin as [Heq|Hin].
      * rewrite Heq. destruct (Z.max_spec x y) as [[_ ->]|[_ ->]];
          rewrite !elem_of_cons; tauto.
      * rewrite !elem_of_cons. tauto.
    + intros z Hz. rewrite !elem_of_cons in Hz. destruct Hz as [->|[->|Hz]]; [lia|lia|].
      apply Hle. by apply list_elem_of_further.
Qed.

Lemma py_max_spec l :
  l ≠ [] → ∃ m, py_max l = Ok m ∧ m ∈ l ∧ ∀ x, x ∈ l → (x ≤ m)%Z.
Proof.
  destruct l as [|x xs]; [done|]. intros _. simpl.
  eexists. split; [done|]. apply foldl_max_spec.
Qed.

Lemma partition_values_nonempty (partition : gmap nat Z) n v :
  partition !! n = Some v → v ∈ (map_to_list partition).*2.
Proof.
  intros Hn. apply list_elem_of_fmap. exists (n, v). split; [done|].
  by apply elem_of_map_to_list.
Qed.

Lemma partition_values_lookup (partition : gmap nat Z) v :
  v ∈ (map_to_list partition).*2 → ∃ n, partition !! n = Some v.
Proof.
  intros Hv. apply list_elem_of_fmap in Hv as ([n v'] & -> & Hin).
  exists n. by apply elem_of_map_to_list.
Qed.

Lemma length_py_range a n : length (py_range a n) = n.
Proof. unfold py_range. by rewrite length_map, length_seq. Qed.

Lemma lookup_py_range a n k :
  k < n → py_range a n !! k = Some (a + Z.of_nat k)%Z.
Proof.
  intros Hk. unfold py_range. rewrite list_lookup_fmap, lookup_seq_lt by done.
  done.
Qed.

Lemma update_all_notin l : ∀ (m : gmap nat Z) n,
  n ∉ l.*1 → update_all m l !! n = m !! n.
Proof.
  induction l as [|[k v] l IH]; intros m n Hn; [done|].
  simpl in *. apply not_elem_of_cons in Hn as [Hne Hn].
  rewrite IH by done. by rewrite lookup_insert_ne.
Qed.

Lemma update_all_in l : ∀ (m : gmap nat Z) n v,
  NoDup l.*1 → (n, v) ∈ l → update_all m l !! n = Some v.
Proof.
  induction l as [|[k0 v0] l IH]; intros m n v Hnd Hin.
  { by apply elem_of_nil in Hin. }
  simpl in *. apply NoDup_cons in Hnd as [Hnot Hnd].
  apply elem_of_cons in Hin as [[= -> ->]|Hin].
  - rewrite update_all_notin by done. by rewrite lookup_insert_eq.
  - by apply IH.
Qed.

Lemma length_event_labels partition c : length (event_labels partition c) = c.
Proof. unfold event_labels. by rewrite length_map, length_seq. Qed.

Lemma lookup_event_labels (partition : gmap nat Z) c n :
  n < c → event_labels partition c !! n = Some (default (-1)%Z (partition !! n)).
Proof.
  intros Hn. unfold event_labels.
  change (map ?f ?l) with (f <$> l). by rewrite list_lookup_fmap, lookup_seq_lt.
Qed.

(** ** Projection onto the samples *)

Lemma py_getitem_sentinel (labels : list Z) :
  py_getitem (labels ++ [(-1)%Z]) (-1) = Ok (-1)%Z.
Proof.
  unfold py_getitem. rewrite length_app. simpl.
  replace (-1 + Z.of_nat (length labels + 1))%Z with (Z.of_nat (length labels)) by lia.
  rewrite Nat2Z.id.
  destruct (Z.leb_spec 0 (Z.of_nat (length labels))); [|lia].
  destruct (Z.ltb_spec (Z.of_nat (length labels)) (Z.of_nat (length labels + 1))); [|lia].
  simpl. by rewrite list_lookup_middle.
Qed.

Lemma py_getitem_event (labels : list Z) (e : Z) x :
  (0 ≤ e)%Z → labels !! Z.to_nat e = Some x →
  py_getitem (labels ++ [(-1)%Z]) e = Ok x.
Proof.
  intros He Hx. unfold py_getitem. rewrite length_app. simpl.
  pose proof (lookup_lt_Some _ _ _ Hx) as Hlt.
  destruct (Z.ltb_spec e 0); [lia|].
  destruct (Z.leb_spec 0 e); [|lia].
  destruct (Z.ltb_spec e (Z.of_nat (length labels + 1))); [|lia].
  simpl. by rewrite lookup_app_l, Hx.
Qed.

Lemma mapM_result_ok {A B} (f : A → result B) (g : A → B) l :
  Forall (λ x, f x = Ok (g x)) l → mapM f l = Ok (g <$> l).
Proof.
  induction 1 as [|x l Hx _ IH]; [done|].
  cbn [mapM]. rewrite Hx. cbn [mbind result_bind]. rewrite IH. done.
Qed.

Lemma project_labels_ok (partition : gmap nat Z) c event_map :
  valid_event_map c event_map →
  project_labels (event_labels partition c) event_map =
  Ok (sample_label partition <$> event_map).
Proof.
  intros Hvalid. unfold project_labels. apply mapM_result_ok.
  eapply Forall_impl; [exact Hvalid|]. intros e [->|He]; unfold sample_label.
  - rewrite decide_True by done. apply py_getitem_sentinel.
  - rewrite decide_False by lia. apply py_getitem_event; [lia|].
    apply lookup_event_labels. lia.
Qed.

(** ** The pipeline, stage by stage *)

Section pipeline.
Context `{U : Utils} `{R : PyRuntime}.

Lemma build_graph_ok r2 c pd h :
  condensed c pd →
  build_graph r2 c pd h =
  (Ok (proximity_edges r2 c pd, connected_nodes r2 c pd, singleton_events r2 c pd),
   h ++ [distance_matrix c pd]).
Proof. intros Hlen. by rewrite build_graph_eval, setitem2_distances. Qed.

Lemma preserves_heap_build_graph r2 c pd : preserves_heap (build_graph r2 c pd).
Proof.
  intros h. rewrite build_graph_eval.
  destruct (setitem2 _ _ _); simpl; eauto.
Qed.

Lemma with_timestamps_eval coords a h :
  h !! coords = Some a →
  with_timestamps coords h =
  if decide (ncols a = 2)
  then (Ok (length h),
        h ++ [np_hstack_column a (map (λ k, of_int (Z.of_nat k)) (seq 0 (shape0 a)))])
  else (Ok coords, h).
Proof.
  intros Ha. unfold with_timestamps. rewrite bind_eval. unfold load at 1.
  rewrite Ha. by destruct (decide (ncols a = 2)).
Qed.

Lemma preserves_heap_with_timestamps coords : preserves_heap (with_timestamps coords).
Proof.
  apply preserves_heap_bind; [apply preserves_heap_load|]. intros a.
  destruct (decide _); [apply preserves_heap_alloc|apply preserves_heap_ret].
Qed.

(** The array that reaches [compute_intervals]. *)
Lemma postprocess_eval coords a labels event_map ri mtb h coord_labels :
  h !! coords = Some a →
  project_labels labels event_map = Ok coord_labels →
  postprocess coords labels event_map ri mtb h =
  if ri then
    if decide (ncols a = 2) then
      let a' := np_hstack_column a (map (λ k, of_int (Z.of_nat k)) (seq 0 (shape0 a))) in
      (Intervals <$> compute_intervals a' coord_labels mtb, h ++ [a'])
    else (Intervals <$> compute_intervals a coord_labels mtb, h)
  else (Ok (LabelArray coord_labels), h).
Proof.
  intros Ha Hp. unfold postprocess. rewrite bind_lift, Hp.
  destruct ri; [|done].
  rewrite bind_eval, (with_timestamps_eval _ _ _ Ha).
  destruct (decide (ncols a = 2)).
  - rewrite bind_eval. unfold load at 1. rewrite list_lookup_middle by done.
    rewrite bind_lift. by destruct (compute_intervals _ _ _).
  - rewrite bind_eval. unfold load at 1. rewrite Ha.
    rewrite bind_lift. by destruct (compute_intervals _ _ _).
Qed.

Lemma preserves_heap_postprocess coords labels event_map ri mtb :
  preserves_heap (postprocess coords labels event_map ri mtb).
Proof.
  apply preserves_heap_bind; [apply preserves_heap_lift|]. intros cl.
  destruct ri; [|apply preserves_heap_ret].
  apply preserves_heap_bind; [apply preserves_heap_with_timestamps|]. intros l.
  apply preserves_heap_bind; [apply preserves_heap_load|]. intros a.
  apply preserves_heap_bind; [apply preserves_heap_lift|]. intros iv.
  apply preserves_heap_ret.
Qed.

Lemma run_infomap_eval w r2 coords ev df em ls rm ri mtb pd h :
  general_pdist ev df = Ok pd → condensed (shape0 ev) pd →
  run_infomap w r2 coords ev df em ls rm ri mtb h =
  let c := shape0 ev in
  let h' := h ++ [distance_matrix c pd] in
  if decide (proximity_edges r2 c pd = []) then (Raise insufficient_graph, h')
  else
    match infer_labels w (connected_nodes r2 c pd) (proximity_edges r2 c pd)
            (singleton_events r2 c pd) c ls with
    | Raise e => (Raise e, h')
    | Ok labels =>
        if rm then (Ok (LabelArray labels), h')
        else postprocess coords labels em ri mtb h'
    end.
Proof.
  intros Hpd Hlen. unfold run_infomap. rewrite bind_lift, Hpd.
  rewrite bind_eval, build_graph_ok by done. cbv beta iota zeta.
  destruct (proximity_edges r2 (shape0 ev) pd) as [|e edges] eqn:Hedges.
  - rewrite decide_True by (simpl; lia). by rewrite decide_True.
  - rewrite decide_False by (simpl; lia). rewrite decide_False by done.
    rewrite bind_lift. destruct (infer_labels _ _ _ _ _ _); [|done].
    by destruct rm.
Qed.

Lemma preserves_heap_run_infomap w r2 coords ev df em ls rm ri mtb :
  preserves_heap (run_infomap w r2 coords ev df em ls rm ri mtb).
Proof.
  apply preserves_heap_bind; [apply preserves_heap_lift|]. intros pd.
  apply preserves_heap_bind; [apply preserves_heap_build_graph|].
  intros [[edges nodes] singles].
  destruct (decide _); [apply preserves_heap_lift|].
  apply preserves_heap_bind; [apply preserves_heap_lift|]. intros labels.
  destruct rm; [apply preserves_heap_ret|apply preserves_heap_postprocess].
Qed.

Lemma best_partition_eval w coords a r1 r2 rm ls mst mtb df ri min_size h :
  h !! coords = Some a →
  best_partition w coords r1 r2 rm ls mst mtb df ri min_size h =
  match validate a df with
  | Raise e => (Raise e, h)
  | Ok _ =>
      match group_time_distance a r1 mst mtb df with
      | Raise e => (Raise e, h)
      | Ok g =>
          match get_stationary_events g min_size with
          | Raise e => (Raise e, h)
          | Ok (ev, em) => run_infomap w r2 coords ev df em ls rm ri mtb h
          end
      end
  end.
Proof.
  intros Ha. unfold best_partition. rewrite bind_eval. unfold load at 1.
  rewrite Ha. rewrite bind_lift. destruct (validate a df); [|done].
  rewrite bind_lift. destruct (group_time_distance _ _ _ _ _); [|done].
  rewrite bind_lift. by destruct (get_stationary_events _ _) as [[ev em]|].
Qed.

Lemma preserves_heap_best_partition w coords r1 r2 rm ls mst mtb df ri min_size :
  preserves_heap (best_partition w coords r1 r2 rm ls mst mtb df ri min_size).
Proof.
  apply preserves_heap_bind; [apply preserves_heap_load|]. intros a.
  apply preserves_heap_bind; [apply preserves_heap_lift|]. intros _.
  apply preserves_heap_bind; [apply preserves_heap_lift|]. intros g.
  apply preserves_heap_bind; [apply preserves_heap_lift|]. intros [ev em].
  apply preserves_heap_run_infomap.
Qed.

End pipeline.

(** ** The singleton policy *)

Lemma update_all_inv l : ∀ (m : gmap nat Z) n v,
  update_all m l !! n = Some v → m !! n = Some v ∨ (n, v) ∈ l.
Proof.
  induction l as [|[k0 v0] l IH]; intros m n v Hn; [by left|].
  simpl in Hn. apply IH in Hn as [Hn|Hn].
  - simpl in Hn. destruct (decide (k0 = n)) as [->|Hne].
    + rewrite lookup_insert_eq in Hn. injection Hn as ->. right. apply list_elem_of_here.
    + rewrite lookup_insert_ne in Hn by done. by left.
  - right. by apply list_elem_of_further.
Qed.

Lemma elem_of_zip_py_range (singles : list nat) a s v :
  (s, v) ∈ zip singles (py_range a (length singles)) ↔
  ∃ k, singles !! k = Some s ∧ v = (a + Z.of_nat k)%Z.
Proof.
  rewrite list_elem_of_lookup. split.
  - intros (k & Hk). apply lookup_zip_with_Some in Hk as (s' & v' & [= <- <-] & Hs & Hv).
    exists k. split; [done|].
    rewrite lookup_py_range in Hv by (by eapply lookup_lt_Some). congruence.
  - intros (k & Hs & ->). exists k. apply lookup_zip_with_Some.
    eexists _, _. split; [done|]. split; [done|].
    apply lookup_py_range. by eapply lookup_lt_Some.
Qed.

Lemma relabelled_singleton (partition : gmap nat Z) (singles : list nat) m :
  NoDup singles → numbered_in_iteration_order singles m (relabelled partition singles m).
Proof.
  intros Hnd k s Hs. unfold relabelled. apply update_all_in.
  - rewrite fst_zip; [done|]. by rewrite length_py_range.
  - apply elem_of_zip_py_range. eauto.
Qed.

Lemma relabelled_other (partition : gmap nat Z) (singles : list nat) m n :
  n ∉ singles → relabelled partition singles m !! n = partition !! n.
Proof.
  intros Hn. unfold relabelled. apply update_all_notin.
  rewrite fst_zip; [done|]. by rewrite length_py_range.
Qed.

Lemma relabelled_inv (partition : gmap nat Z) (singles : list nat) m n v :
  relabelled partition singles m !! n = Some v →
  partition !! n = Some v ∨ ∃ k, singles !! k = Some n ∧ v = (m + 1 + Z.of_nat k)%Z.
Proof.
  intros Hn. apply update_all_inv in Hn as [Hn|Hn]; [by left|right].
  by apply elem_of_zip_py_range in Hn.
Qed.

Lemma partition_max (partition : gmap nat Z) :
  partition ≠ ∅ →
  ∃ m, py_max (map_to_list partition).*2 = Ok m ∧
       (∃ n, partition !! n = Some m) ∧
       ∀ n v, partition !! n = Some v → (v ≤ m)%Z.
Proof.
  intros Hne. destruct (py_max_spec (map_to_list partition).*2) as (m & Hm & Hin & Hle).
  - intros Hnil. apply fmap_nil_inv, map_to_list_empty_iff in Hnil. done.
  - exists m. split; [done|]. split; [by apply partition_values_lookup|].
    intros n v Hv. eapply Hle, partition_values_nonempty, Hv.
Qed.

Lemma label_singletons_ok partition singles m :
  py_max (map_to_list partition).*2 = Ok m →
  label_singletons partition singles = Ok (relabelled partition singles m).
Proof. intros Hm. unfold label_singletons. by rewrite Hm. Qed.

Lemma oracle_contract_nonempty nodes (partition : gmap nat Z) :
  oracle_contract nodes partition → nodes ≠ [] → partition ≠ ∅.
Proof.
  intros [Hdom _] Hne ->. rewrite dom_empty_L in Hdom.
  destruct nodes as [|n nodes]; [done|].
  assert (n ∈ (∅ : gset nat)) as Hin.
  { rewrite Hdom. apply elem_of_list_to_set, list_elem_of_here. }
  by apply elem_of_empty in Hin.
Qed.

Lemma oracle_contract_nonneg nodes (partition : gmap nat Z) n v :
  oracle_contract nodes partition → partition !! n = Some v → (0 ≤ v)%Z.
Proof.
  intros [_ Hpos] Hn. rewrite Forall_forall in Hpos.
  eapply Hpos, partition_values_nonempty, Hn.
Qed.

Section labels.
Context `{U : Utils} `{R : PyRuntime}.

Lemma infer_labels_ok w nodes edges singles c ls (partition : gmap nat Z) :
  infomap_communities w nodes edges = Ok partition →
  partition ≠ ∅ →
  ∃ m, py_max (map_to_list partition).*2 = Ok m ∧
       infer_labels w nodes edges singles c ls =
       Ok (event_labels (final_partition ls partition singles m) c).
Proof.
  intros Horacle Hne. destruct (partition_max _ Hne) as (m & Hm & _).
  exists m. split; [done|]. unfold infer_labels. rewrite Horacle.
  cbn [mbind result_bind]. destruct ls; cbn [final_partition]; [|done].
  by rewrite (label_singletons_ok _ _ _ Hm).
Qed.

Lemma edges_have_nodes r2 c pd :
  proximity_edges r2 c pd ≠ [] → connected_nodes r2 c pd ≠ [].
Proof. intros Hne Hnil. by apply flatten_nil_inv in Hnil. Qed.

End labels.

(** ** Where an exception can come from *)

Lemma py_getitem_raise {A} (l : list A) i e : py_getitem l i = Raise e → e = IndexError.
Proof.
  unfold py_getitem. destruct (_ && _); [|congruence].
  destruct (l !! _); congruence.
Qed.

Lemma mapM_raise {A B} (f : A → result B) l e :
  mapM f l = Raise e → ∃ x, x ∈ l ∧ f x = Raise e.
Proof.
  induction l as [|x l IH]; [done|]. cbn [mapM mbind result_bind].
  destruct (f x) as [y|e'] eqn:Hx.
  - destruct (mapM f l) as [ys|e'']; [done|]. intros [= ->].
    destruct IH as (x' & Hin & Hx'); [done|].
    exists x'. split; [by apply list_elem_of_further|done].
  - intros [= ->]. exists x. split; [apply list_elem_of_here|done].
Qed.

Lemma project_labels_raise labels event_map e :
  project_labels labels event_map = Raise e → e = IndexError.
Proof.
  intros H. apply mapM_raise in H as (x & _ & Hx). by eapply py_getitem_raise.
Qed.

Section raises.
Context `{U : Utils} `{R : PyRuntime}.

Lemma infer_labels_raise w nodes edges singles c ls e :
  infer_labels w nodes edges singles c ls = Raise e →
  infomap_communities w nodes edges = Raise e ∨ e = ValueError.
Proof.
  unfold infer_labels. destruct (infomap_communities _ _ _) as [p|e'];
    cbn [mbind result_bind]; [|intros [= ->]; by left].
  destruct ls; [|done].
  unfold label_singletons. destruct (py_max _) as [m|e'] eqn:Hm; [done|].
  cbn [mbind result_bind]. intros [= ->]. right.
  destruct (map_to_list p).*2; simpl in Hm; congruence.
Qed.

Lemma postprocess_raise coords labels event_map ri mtb h e :
  (postprocess coords labels event_map ri mtb h).1 = Raise e →
  e = IndexError ∨ e = SystemError ∨
  ∃ a coord_labels, compute_intervals a coord_labels mtb = Raise e.
Proof.
  unfold postprocess. rewrite bind_lift.
  destruct (project_labels _ _) as [cl|e'] eqn:Hp.
  2:{ simpl. intros [= ->]. left. by eapply project_labels_raise. }
  destruct ri; [|done]. rewrite bind_eval.
  assert (∀ l h0, (load l h0).1 = Raise e → e = SystemError) as Hload.
  { intros l h0. unfold load. destruct (h0 !! l); simpl; congruence. }
  assert (∀ l h0,
    ((load l ≫= λ a, lift (compute_intervals a cl mtb) ≫= λ iv, mret (Intervals iv)) h0).1
      = Raise e →
    e = SystemError ∨ ∃ a coord_labels, compute_intervals a coord_labels mtb = Raise e)
    as Hrest.
  { intros l h0. rewrite bind_eval. unfold load.
    destruct (h0 !! l) as [a|]; [|simpl; intros [= ->]; by left].
    rewrite bind_lift. destruct (compute_intervals a cl mtb) as [iv|e'] eqn:Hiv; [done|].
    simpl. intros [= ->]. right. eauto. }
  unfold with_timestamps. rewrite bind_eval. unfold load at 1.
  destruct (h !! coords) as [a|]; [|simpl; intros [= ->]; right; by left].
  destruct (decide (ncols a = 2)); intros H; right; eapply Hrest, H.
Qed.

End raises.

(** ** Towards the claims *)

Lemma pair_distance_total c pd i j :
  condensed c pd → i < j < c → ∃ d, pair_distance c pd i j d.
Proof.
  intros Hlen Hij.
  assert ((i, j) ∈ np_triu_indices c 1) as Hin by (apply elem_of_triu; lia).
  apply list_elem_of_lookup in Hin as [k Hk].
  destruct (lookup_lt_is_Some_2 pd k) as [d Hd].
  { rewrite Hlen. by eapply lookup_lt_Some. }
  by exists d, k.
Qed.

Lemma pair_distance_entry c pd i j d :
  condensed c pd → pair_distance c pd i j d →
  i < j < c ∧ get2 (distance_matrix c pd) i j = d.
Proof.
  intros Hlen (k & Hk & Hd). split.
  - apply list_elem_of_lookup_2, elem_of_triu in Hk. lia.
  - by eapply distance_matrix_upper.
Qed.

Lemma elem_of_proximity_edges r2 c pd i j :
  condensed c pd →
  (i, j) ∈ proximity_edges r2 c pd ↔
  ∃ d, pair_distance c pd i j d ∧ f_ltb d r2 = true.
Proof.
  intros Hlen. unfold proximity_edges.
  rewrite elem_of_np_where_lt, distance_matrix_ncols.
  destruct (distance_matrix_dims c pd) as [-> _]. split.
  - intros (Hi & Hj & Hlt). destruct (decide (i < j < c)) as [Hij|Hij].
    + destruct (pair_distance_total c pd i j Hlen Hij) as [d Hd].
      exists d. split; [done|].
      by destruct (pair_distance_entry _ _ _ _ _ Hlen Hd) as [_ <-].
    + by rewrite distance_matrix_other in Hlt.
  - intros (d & Hd & Hlt).
    destruct (pair_distance_entry _ _ _ _ _ Hlen Hd) as [Hij Hget].
    rewrite Hget. repeat split; [lia|lia|done].
Qed.

Lemma proximity_edges_nil r2 c pd :
  condensed c pd →
  proximity_edges r2 c pd = [] ↔
  ¬ ∃ i j d, pair_distance c pd i j d ∧ f_ltb d r2 = true.
Proof.
  intros Hlen. split.
  - intros Hnil (i & j & d & Hd). 
    assert ((i, j) ∈ proximity_edges r2 c pd) as Hin
      by (apply elem_of_proximity_edges; eauto).
    rewrite Hnil in Hin. by apply elem_of_nil in Hin.
  - intros Hno. destruct (proximity_edges r2 c pd) as [|[i j] edges] eqn:He; [done|].
    exfalso. apply Hno. exists i, j. apply elem_of_proximity_edges; [done|].
    rewrite He. apply list_elem_of_here.
Qed.

Lemma zip_with_times (l : list (list float64)) : ∀ n,
  zip_with (λ r t, r ++ [t]) l (map (λ k, of_int (Z.of_nat k)) (seq n (length l))) =
  imap (λ i r, r ++ [of_int (Z.of_nat (n + i))]) l.
Proof.
  induction l as [|r l IH]; intros n; [done|].
  simpl. rewrite Nat.add_0_r. f_equal. rewrite IH. apply imap_ext.
  intros i x _. simpl. by rewrite Nat.add_succ_r.
Qed.

Lemma rows_hstack_times a :
  rows (np_hstack_column a (map (λ k, of_int (Z.of_nat k)) (seq 0 (shape0 a)))) =
  imap (λ i r, r ++ [of_int (Z.of_nat i)]) (rows a).
Proof. unfold np_hstack_column, shape0. simpl. apply zip_with_times. Qed.

Lemma final_partition_nonneg ls nodes (partition : gmap nat Z) singles m n v :
  oracle_contract nodes partition →
  py_max (map_to_list partition).*2 = Ok m →
  final_partition ls partition singles m !! n = Some v → (0 ≤ v)%Z.
Proof.
  intros Hc Hm Hn. destruct ls; cbn [final_partition] in Hn;
    [|by eapply oracle_contract_nonneg].
  apply relabelled_inv in Hn as [Hn|(k & _ & ->)]; [by eapply oracle_contract_nonneg|].
  assert (0 ≤ m)%Z; [|lia].
  destruct (map_to_list partition).*2 as [|x xs] eqn:Hvals; [done|].
  destruct (py_max_spec (x :: xs)) as (m' & Hm' & Hin & _); [done|].
  rewrite <- Hvals in *. assert (m' = m) as -> by congruence.
  destruct Hc as [_ Hpos]. rewrite Forall_forall in Hpos. by apply Hpos.
Qed.

Section runs.
Context `{U : Utils} `{R : PyRuntime}.

(** What a run returns once the assertions have passed, the helpers have
    returned, and the graph has an edge. *)
Lemma labels_of_run w coords a r1 r2 rm ls mst mtb df ri min_size h g ev em pd
    (partition : gmap nat Z) :
  h !! coords = Some a →
  validate a df = Ok tt →
  group_time_distance a r1 mst mtb df = Ok g →
  get_stationary_events g min_size = Ok (ev, em) →
  general_pdist ev df = Ok pd →
  condensed (shape0 ev) pd →
  proximity_edges r2 (shape0 ev) pd ≠ [] →
  infomap_communities w (connected_nodes r2 (shape0 ev) pd)
    (proximity_edges r2 (shape0 ev) pd) = Ok partition →
  partition ≠ ∅ →
  let c := shape0 ev in
  let h' := h ++ [distance_matrix c pd] in
  ∃ m, py_max (map_to_list partition).*2 = Ok m ∧
    let labels :=
      event_labels (final_partition ls partition (singleton_events r2 c pd) m) c in
    best_partition w coords r1 r2 rm ls mst mtb df ri min_size h =
    if rm then (Ok (LabelArray labels), h')
    else postprocess coords labels em ri mtb h'.
Proof.
  intros Ha Hv Hg He Hpd Hlen Hedges Horacle Hne. cbv zeta.
  destruct (infer_labels_ok w _ _ (singleton_events r2 (shape0 ev) pd)
              (shape0 ev) ls _ Horacle Hne) as (m & Hm & Hlabels).
  exists m. split; [done|].
  rewrite (best_partition_eval _ _ _ _ _ _ _ _ _ _ _ _ _ Ha), Hv, Hg, He.
  rewrite (run_infomap_eval _ _ _ _ _ _ _ _ _ _ _ _ Hpd Hlen). cbv zeta.
  rewrite decide_False by done. by rewrite Hlabels.
Qed.

End runs.

Section two_runs.
Context `{U : Utils}.

(** What [postprocess] returns is a function of the array behind
    [coords], not of where it lies or of what else is on the heap. *)
Lemma postprocess_result coords a labels em ri mtb h :
  h !! coords = Some a →
  (postprocess coords labels em ri mtb h).1 =
  match project_labels labels em with
  | Raise e => Raise e
  | Ok coord_labels =>
      if ri then
        Intervals <$>
          compute_intervals
            (if decide (ncols a = 2)
             then np_hstack_column a (map (λ k, of_int (Z.of_nat k)) (seq 0 (shape0 a)))
             else a)
            coord_labels mtb
      else Ok (LabelArray coord_labels)
  end.
Proof.
  intros Ha. destruct (project_labels labels em) as [cl|e] eqn:Hp.
  - rewrite (postprocess_eval _ _ _ _ _ _ _ _ Ha Hp).
    destruct ri; [|done]. by destruct (decide (ncols a = 2)).
  - unfold postprocess. by rewrite bind_lift, Hp.
Qed.

(** The labels do not depend on the singletons unless [label_singleton]
    is set. *)
Lemma infer_labels_agree w1 w2 nodes edges singles1 singles2 c ls :
  (∀ nodes edges, infomap_communities w1 nodes edges = infomap_communities w2 nodes edges) →
  (ls = true → singles1 = singles2) →
  infer_labels w1 nodes edges singles1 c ls = infer_labels w2 nodes edges singles2 c ls.
Proof.
  intros Hdet Hsingles. unfold infer_labels. rewrite Hdet.
  destruct (infomap_communities w2 nodes edges); [|done].
  destruct ls; [|done]. by rewrite Hsingles.
Qed.

Lemma run_infomap_result (R1 R2 : PyRuntime) w1 w2 r2 coords1 coords2 a ev df em
    ls rm ri mtb h1 h2 :
  h1 !! coords1 = Some a →
  h2 !! coords2 = Some a →
  (∀ nodes edges, infomap_communities w1 nodes edges = infomap_communities w2 nodes edges) →
  (ls = true → ∀ l, @set_iter R1 l = @set_iter R2 l) →
  (@run_infomap U R1 w1 r2 coords1 ev df em ls rm ri mtb h1).1 =
  (@run_infomap U R2 w2 r2 coords2 ev df em ls rm ri mtb h2).1.
Proof.
  intros Ha1 Ha2 Hdet Hset. unfold run_infomap. rewrite !bind_lift.
  destruct (general_pdist ev df) as [pd|]; [|done].
  rewrite !bind_eval, !build_graph_eval.
  destruct (setitem2 _ _ _) as [D|]; [|done]. cbv zeta beta iota.
  destruct (decide (length (np_where_lt D r2) < 1)); [done|].
  rewrite !bind_lift.
  rewrite (infer_labels_agree w1 w2 _ _
             (@py_set_difference R1 (shape0 ev) (np_unique (flatten (np_where_lt D r2))))
             (@py_set_difference R2 (shape0 ev) (np_unique (flatten (np_where_lt D r2))))
             _ ls Hdet).
  2:{ intros Hls. unfold py_set_difference. by apply Hset. }
  destruct (infer_labels _ _ _ _ _ _) as [labels|]; [|done].
  destruct rm; [done|].
  rewrite (postprocess_result coords1 a), (postprocess_result coords2 a); [done|..];
    by apply lookup_app_l_Some.
Qed.

End two_runs.

(** * The claims *)

Section claims.
Context `{U : Utils} `{R : PyRuntime}.

(** C1. With [return_medoid_labels] (and [return_intervals]) false, a run
    on which the assertions pass, the helpers return what their contracts
    promise (an EventMap with one valid entry per sample, one distance per
    pair, a partition of the connected nodes) and the graph has an edge
    returns a label array with one label per input sample. *)
Theorem C1_one_label_per_sample w coords a r1 r2 ls mst mtb df min_size h g ev em pd
    (partition : gmap nat Z) :
  h !! coords = Some a →
  validate a df = Ok tt →
  group_time_distance a r1 mst mtb df = Ok g →
  get_stationary_events g min_size = Ok (ev, em) →
  length em = shape0 a →
  valid_event_map (shape0 ev) em →
  general_pdist ev df = Ok pd →
  condensed (shape0 ev) pd →
  proximity_edges r2 (shape0 ev) pd ≠ [] →
  infomap_communities w (connected_nodes r2 (shape0 ev) pd)
    (proximity_edges r2 (shape0 ev) pd) = Ok partition →
  oracle_contract (connected_nodes r2 (shape0 ev) pd) partition →
  ∃ labels h',
    best_partition w coords r1 r2 false ls mst mtb df false min_size h
      = (Ok (LabelArray labels), h') ∧
    length labels = shape0 a.
Proof.
  intros Ha Hv Hg He Hem Hvalid Hpd Hlen Hedges Horacle Hcontract.
  assert (partition ≠ ∅) as Hne
    by eauto using oracle_contract_nonempty, edges_have_nodes.
  destruct (labels_of_run w coords a r1 r2 false ls mst mtb df false min_size
              h g ev em pd partition) as (m & Hm & Hrun); try done.
  cbv zeta in Hrun. rewrite Hrun.
  erewrite postprocess_eval;
    [|by apply lookup_app_l_Some|by apply project_labels_ok].
  eexists _, _. split; [done|]. by rewrite length_fmap.
Qed.

(** C2. On such a run the label of every sample is read off its EventMap
    entry: the sentinel gives -1, an event with a community gives that
    community's id, an event without one gives -1. The lookup never fails,
    and every label is -1 or non-negative. *)
Theorem C2_label_lookup_total w r2 coords a ev df em ls mtb h pd (partition : gmap nat Z) :
  h !! coords = Some a →
  valid_event_map (shape0 ev) em →
  general_pdist ev df = Ok pd →
  condensed (shape0 ev) pd →
  proximity_edges r2 (shape0 ev) pd ≠ [] →
  infomap_communities w (connected_nodes r2 (shape0 ev) pd)
    (proximity_edges r2 (shape0 ev) pd) = Ok partition →
  oracle_contract (connected_nodes r2 (shape0 ev) pd) partition →
  ∃ m labels h',
    py_max (map_to_list partition).*2 = Ok m ∧
    run_infomap w r2 coords ev df em ls false false mtb h
      = (Ok (LabelArray labels), h') ∧
    let final := final_partition ls partition (singleton_events r2 (shape0 ev) pd) m in
    (∀ s e, em !! s = Some e →
       ∃ l, labels !! s = Some l ∧
            (e = (-1)%Z → l = (-1)%Z) ∧
            (∀ k, e ≠ (-1)%Z → final !! Z.to_nat e = Some k → l = k) ∧
            (e ≠ (-1)%Z → final !! Z.to_nat e = None → l = (-1)%Z)) ∧
    Forall (λ l, l = (-1)%Z ∨ (0 ≤ l)%Z) labels.
Proof.
  intros Ha Hvalid Hpd Hlen Hedges Horacle Hcontract.
  assert (partition ≠ ∅) as Hne
    by eauto using oracle_contract_nonempty, edges_have_nodes.
  destruct (infer_labels_ok w _ _ (singleton_events r2 (shape0 ev) pd)
              (shape0 ev) ls _ Horacle Hne) as (m & Hm & Hlabels).
  set (final := final_partition ls partition (singleton_events r2 (shape0 ev) pd) m) in *.
  exists m, (sample_label final <$> em), (h ++ [distance_matrix (shape0 ev) pd]).
  split; [done|]. split.
  { rewrite (run_infomap_eval _ _ _ _ _ _ _ _ _ _ _ _ Hpd Hlen). cbv zeta.
    rewrite decide_False by done. rewrite Hlabels.
    erewrite postprocess_eval;
      [done|by apply lookup_app_l_Some|by apply project_labels_ok]. }
  cbv zeta. subst final. split.
  - intros s e Hs. eexists (sample_label _ e).
    rewrite list_lookup_fmap, Hs. split; [done|]. unfold sample_label.
    destruct (decide (e = (-1)%Z)) as [->|Hne']; [done|].
    split; [done|]. split; [by intros k _ ->|by intros _ ->].
  - apply Forall_fmap, Forall_forall. intros e _. simpl. unfold sample_label.
    destruct (decide _); [by left|].
    destruct (final_partition _ _ _ _ !! Z.to_nat e) as [v|] eqn:Hv; simpl; [right|by left].
    by eapply final_partition_nonneg.
Qed.

(** C3. Once the assertions have passed and the helpers have returned,
    [best_partition] raises the no-edge exception exactly when no pair of
    events lies below [r2]; nothing is returned then. When some pair does,
    the exception is not raised and the run goes on to infer the labels. *)
Theorem C3_no_edge_is_fatal w coords a r1 r2 rm ls mst mtb df ri min_size h g ev em pd :
  h !! coords = Some a →
  validate a df = Ok tt →
  group_time_distance a r1 mst mtb df = Ok g →
  get_stationary_events g min_size = Ok (ev, em) →
  general_pdist ev df = Ok pd →
  condensed (shape0 ev) pd →
  foreign_to_helpers insufficient_graph →
  let c := shape0 ev in
  let run := best_partition w coords r1 r2 rm ls mst mtb df ri min_size h in
  let some_edge := ∃ i j d, pair_distance c pd i j d ∧ f_ltb d r2 = true in
  (run.1 = Raise insufficient_graph ↔ ¬ some_edge) ∧
  (some_edge →
   run = (labels ← lift (infer_labels w (connected_nodes r2 c pd)
                           (proximity_edges r2 c pd) (singleton_events r2 c pd) c ls);
          if rm then mret (LabelArray labels)
          else postprocess coords labels em ri mtb)
           (h ++ [distance_matrix c pd])).
Proof.
  intros Ha Hv Hg He Hpd Hlen [Horacle Hintervals] c run some_edge.
  assert (run = run_infomap w r2 coords ev df em ls rm ri mtb h) as Hrun.
  { subst run. by rewrite (best_partition_eval _ _ _ _ _ _ _ _ _ _ _ _ _ Ha), Hv, Hg, He. }
  rewrite (run_infomap_eval _ _ _ _ _ _ _ _ _ _ _ _ Hpd Hlen) in Hrun.
  cbv zeta in Hrun. fold c in Hrun.
  pose proof (proximity_edges_nil r2 c pd Hlen) as Hnil. fold some_edge in Hnil.
  destruct (decide (proximity_edges r2 c pd = [])) as [Hedges|Hedges].
  - split; [|intros Hsome; by apply Hnil in Hedges].
    rewrite Hrun. simpl. split; [intros _; by apply Hnil|done].
  - split.
    + split; [|intros Hno; by apply Hnil in Hno].
      intros Hraise. exfalso. rewrite Hrun in Hraise.
      destruct (infer_labels _ _ _ _ _ _) as [labels|e] eqn:Hl.
      * destruct rm; [done|].
        apply postprocess_raise in Hraise as [|[|(a' & cl & Hiv)]]; [done|done|].
        by eapply Hintervals.
      * simpl in Hraise. injection Hraise as ->.
        apply infer_labels_raise in Hl as [Hl|]; [by eapply Horacle|done].
    + intros _. rewrite Hrun, bind_lift.
      destruct (infer_labels _ _ _ _ _ _); [|done]. by destruct rm.
Qed.

(** C4, as amended. With [label_singleton] true, every event without an
    edge receives a fresh id, counted from the oracle's largest id plus
    one along the iteration of the singleton set; these ids are pairwise
    distinct, exceed every id of the oracle, and leave the ids of the
    other events as the oracle gave them. *)
Theorem C4_singletons_get_fresh_ids w c nodes edges (partition : gmap nat Z) :
  set_iter_sound →
  infomap_communities w nodes edges = Ok partition →
  partition ≠ ∅ →
  let singles := py_set_difference c nodes in
  ∃ m final,
    py_max (map_to_list partition).*2 = Ok m ∧
    label_singletons partition singles = Ok final ∧
    infer_labels w nodes edges singles c true = Ok (event_labels final c) ∧
    (∀ n, n ∈ singles ↔ n < c ∧ n ∉ nodes) ∧
    numbered_in_iteration_order singles m final ∧
    (∀ s1 s2 i1 i2, s1 ∈ singles → s2 ∈ singles → s1 ≠ s2 →
       final !! s1 = Some i1 → final !! s2 = Some i2 → i1 ≠ i2) ∧
    (∀ s i n v, s ∈ singles → final !! s = Some i → partition !! n = Some v →
       (v ≤ m < i)%Z) ∧
    (∀ n, n ∉ singles → final !! n = partition !! n).
Proof.
  intros Hset Horacle Hne singles.
  destruct (partition_max _ Hne) as (m & Hm & _ & Hle).
  pose proof (NoDup_py_set_difference Hset c nodes) as Hnd. fold singles in Hnd.
  pose proof (relabelled_singleton partition singles m Hnd) as Hnum.
  exists m, (relabelled partition singles m).
  split; [done|]. split; [by apply label_singletons_ok|]. split.
  { unfold infer_labels. rewrite Horacle. cbn [mbind result_bind].
    by rewrite (label_singletons_ok _ _ _ Hm). }
  split; [intros n; by apply elem_of_py_set_difference|].
  split; [done|]. split; [|split].
  - intros s1 s2 i1 i2 H1 H2 Hne' Hi1 Hi2 ->.
    apply list_elem_of_lookup in H1 as [k1 Hk1], H2 as [k2 Hk2].
    rewrite (Hnum _ _ Hk1) in Hi1. rewrite (Hnum _ _ Hk2) in Hi2.
    assert (k1 = k2) as -> by (injection Hi1; injection Hi2; lia).
    congruence.
  - intros s i n v Hs Hi Hv. apply list_elem_of_lookup in Hs as [k Hk].
    rewrite (Hnum _ _ Hk) in Hi. injection Hi as <-.
    specialize (Hle _ _ Hv). lia.
  - intros n Hn. by apply relabelled_other.
Qed.

(** C5. Once [general_pdist] has returned one distance per pair of the
    upper triangle, the edges that [build_graph] reads off [D] are exactly
    the pairs [(i, j)], [i < j < c], whose distance is below [r2]; no pair
    occurs twice, no edge is a self-loop, and outside the upper triangle
    (on the diagonal in particular) [D] holds NaN, not a distance. *)
Theorem C5_proximity_graph_edges r2 c pd h :
  condensed c pd →
  ∃ edges nodes singles D,
    build_graph r2 c pd h = (Ok (edges, nodes, singles), h ++ [D]) ∧
    (∀ i j, (i, j) ∈ edges ↔
            i < j < c ∧ ∃ d, pair_distance c pd i j d ∧ f_ltb d r2 = true) ∧
    NoDup edges ∧
    (∀ i, (i, i) ∉ edges) ∧
    (∀ i j, (i, j) ∈ edges → (j, i) ∉ edges) ∧
    (∀ i j, ¬ i < j < c → get2 D i j = NaN).
Proof.
  intros Hlen.
  exists (proximity_edges r2 c pd), (connected_nodes r2 c pd),
    (singleton_events r2 c pd), (distance_matrix c pd).
  assert (∀ i j, (i, j) ∈ proximity_edges r2 c pd → i < j < c) as Hlt.
  { intros i j Hin. apply elem_of_proximity_edges in Hin as (d & Hd & _); [|done].
    by destruct (pair_distance_entry _ _ _ _ _ Hlen Hd). }
  split; [by apply build_graph_ok|]. split; [|split; [|split; [|split]]].
  - intros i j. rewrite elem_of_proximity_edges by done. split.
    + intros (d & Hd & Hr). split; [|eauto].
      by destruct (pair_distance_entry _ _ _ _ _ Hlen Hd).
    + by intros [_ H].
  - apply NoDup_np_where_lt.
  - intros i Hin. apply Hlt in Hin. lia.
  - intros i j Hij Hji. apply Hlt in Hij, Hji. lia.
  - intros i j. apply distance_matrix_other.
Qed.

(** C6, as amended. For an input with at least one sample, or with a
    metric other than haversine, the assertions raise exactly when a
    precondition of section 6 is violated; and when they raise,
    [best_partition] raises the same exception before any helper is
    called, leaving the heap as it was. *)
Theorem C6_preconditions_checked w coords a r1 r2 rm ls mst mtb df ri min_size h :
  h !! coords = Some a →
  rows a ≠ [] ∨ df ≠ haversine →
  (is_raise (validate a df) ↔ ¬ preconditions a df) ∧
  (∀ e, validate a df = Raise e →
        best_partition w coords r1 r2 rm ls mst mtb df ri min_size h = (Raise e, h)).
Proof.
  intros Ha Hne. split.
  - rewrite is_raise_not_ok. by rewrite (validate_ok_iff _ _ Hne).
  - intros e He. by rewrite (best_partition_eval _ _ _ _ _ _ _ _ _ _ _ _ _ Ha), He.
Qed.

(** C7. With [return_medoid_labels] true such a run returns the vector of
    one label per stationary event, each the event's community id or -1,
    whatever [return_intervals] is: the result, heap included, is the same
    for both values, and it is never an interval sequence. *)
Theorem C7_medoid_mode_takes_precedence w coords a r1 r2 ls mst mtb df min_size h g
    ev em pd (partition : gmap nat Z) :
  h !! coords = Some a →
  validate a df = Ok tt →
  group_time_distance a r1 mst mtb df = Ok g →
  get_stationary_events g min_size = Ok (ev, em) →
  general_pdist ev df = Ok pd →
  condensed (shape0 ev) pd →
  proximity_edges r2 (shape0 ev) pd ≠ [] →
  infomap_communities w (connected_nodes r2 (shape0 ev) pd)
    (proximity_edges r2 (shape0 ev) pd) = Ok partition →
  partition ≠ ∅ →
  ∃ m labels,
    py_max (map_to_list partition).*2 = Ok m ∧
    (∀ ri, best_partition w coords r1 r2 true ls mst mtb df ri min_size h
           = (Ok (LabelArray labels), h ++ [distance_matrix (shape0 ev) pd])) ∧
    length labels = shape0 ev ∧
    ∀ n, n < shape0 ev →
      labels !! n =
      Some (default (-1)%Z
              (final_partition ls partition
                 (singleton_events r2 (shape0 ev) pd) m !! n)).
Proof.
  intros Ha Hv Hg He Hpd Hlen Hedges Horacle Hne.
  destruct (labels_of_run w coords a r1 r2 true ls mst mtb df true min_size
              h g ev em pd partition) as (m & Hm & _); try done.
  eexists m, _. split; [done|]. split; [|split].
  - intros ri.
    destruct (labels_of_run w coords a r1 r2 true ls mst mtb df ri min_size
                h g ev em pd partition) as (m' & Hm' & Hrun); try done.
    assert (m' = m) as -> by congruence. exact Hrun.
  - apply length_event_labels.
  - intros n Hn. by apply lookup_event_labels.
Qed.

(** C8. When intervals are requested (and medoid labels are not), the
    array handed to [compute_intervals] always has three columns: the
    caller's array itself when it has a timestamp column, and otherwise a
    new array whose row [i] is the sample [i] followed by the timestamp
    [i], for [i = 0 .. N-1]. *)
Theorem C8_ordinal_timestamps w r2 coords a ev df em ls mtb h pd labels coord_labels :
  h !! coords = Some a →
  ncols a = 2 ∨ ncols a = 3 →
  general_pdist ev df = Ok pd →
  condensed (shape0 ev) pd →
  proximity_edges r2 (shape0 ev) pd ≠ [] →
  infer_labels w (connected_nodes r2 (shape0 ev) pd) (proximity_edges r2 (shape0 ev) pd)
    (singleton_events r2 (shape0 ev) pd) (shape0 ev) ls = Ok labels →
  project_labels labels em = Ok coord_labels →
  ∃ a' h',
    run_infomap w r2 coords ev df em ls false true mtb h
      = (Intervals <$> compute_intervals a' coord_labels mtb, h') ∧
    ncols a' = 3 ∧
    shape0 a' = shape0 a ∧
    (ncols a = 3 → a' = a) ∧
    (ncols a = 2 →
       rows a' = imap (λ i r, r ++ [of_int (Z.of_nat i)]) (rows a) ∧
       h' !! coords = Some a).
Proof.
  intros Ha Hcols Hpd Hlen Hedges Hlabels Hproj.
  rewrite (run_infomap_eval _ _ _ _ _ _ _ _ _ _ _ _ Hpd Hlen). cbv zeta.
  rewrite decide_False by done. rewrite Hlabels.
  erewrite postprocess_eval; [|by apply lookup_app_l_Some|done].
  destruct (decide (ncols a = 2)) as [H2|H2]; cbv zeta.
  - eexists _, _. split; [done|]. split; [simpl; lia|]. split; [|split; [lia|]].
    + unfold shape0. rewrite rows_hstack_times. by rewrite length_imap.
    + intros _. split; [apply rows_hstack_times|].
      by apply lookup_app_l_Some, lookup_app_l_Some.
  - eexists _, _. split; [done|]. split; [lia|]. split; [done|].
    split; [done|lia].
Qed.

End claims.

Section determinism.
Context `{U : Utils}.

(** C9. Two runs on the same array and with the same configuration return
    the same result whenever the oracle answers alike in both. The runs
    may differ in the state of the oracle, in the heap and the place of
    the array on it, and in the order in which sets are iterated; only
    with [label_singleton], where that order numbers the singletons, must
    the two runs iterate sets alike (as two runs of one interpreter do). *)
Theorem C9_deterministic (R1 R2 : PyRuntime) w1 w2 coords1 coords2 a r1 r2 rm ls
    mst mtb df ri min_size h1 h2 :
  h1 !! coords1 = Some a →
  h2 !! coords2 = Some a →
  (∀ nodes edges, infomap_communities w1 nodes edges = infomap_communities w2 nodes edges) →
  (ls = true → ∀ l, @set_iter R1 l = @set_iter R2 l) →
  (@best_partition U R1 w1 coords1 r1 r2 rm ls mst mtb df ri min_size h1).1 =
  (@best_partition U R2 w2 coords2 r1 r2 rm ls mst mtb df ri min_size h2).1.
Proof.
  intros Ha1 Ha2 Hdet Hset.
  rewrite (best_partition_eval (R := R1) _ _ _ _ _ _ _ _ _ _ _ _ _ Ha1).
  rewrite (best_partition_eval (R := R2) _ _ _ _ _ _ _ _ _ _ _ _ _ Ha2).
  destruct (validate a df); [|done].
  destruct (group_time_distance _ _ _ _ _); [|done].
  destruct (get_stationary_events _ _) as [[ev em]|]; [|done].
  by apply (run_infomap_result R1 R2 _ _ _ _ _ a).
Qed.

End determinism.

Section frame.
Context `{U : Utils} `{R : PyRuntime}.


(** C10. Whatever the arguments and whichever way the run ends, every
    array that was on the heap before the call, the caller's [coords]
    among them, is there unchanged after it: the run only adds arrays. *)
Theorem C10_input_not_mutated w coords r1 r2 rm ls mst mtb df ri min_size h a :
  h !! coords = Some a →
  let h' := (best_partition w coords r1 r2 rm ls mst mtb df ri min_size h).2 in
  h' !! coords = Some a ∧
  ∀ l b, h !! l = Some b → h' !! l = Some b.
Proof.
  intros Ha h'.
  destruct (preserves_heap_best_partition w coords r1 r2 rm ls mst mtb df ri min_size h)
    as [k Hk].
  subst h'. rewrite Hk. split; [by apply lookup_app_l_Some|].
  intros l b Hb. by apply lookup_app_l_Some.
Qed.

End frame.

(** * The model at work

    The theorems above, applied to runs of the model on the trajectories
    of [Fixture] under CPython's set order. *)

Ltac by_computation := apply (bool_decide_unpack _); vm_compute; exact I.

Lemma fixture_helpers_return e : @foreign_to_helpers Fixture.utils e.
Proof.
  split; [done|]. intros a labels mtb. simpl. unfold Fixture.fx_compute_intervals.
  by destruct (zip labels (col 2 a)) as [|[l t] rest].
Qed.

(** The scenario of section 8: one place visited twice and a stop visited
    once. Without [label_singleton] the samples of the lone stop are
    outliers; with it they receive a fresh id. *)
Example trajectory_labels :
  (@best_partition Fixture.utils CPython 0 0 (of_int 5) (of_int 5) false false
     (of_int 300) (of_int 86400) euclidean false 2 [Fixture.trajectory]).1
  = Ok (LabelArray [0; 0; 0; -1; -1; -1; 0; 0]%Z).
Proof. vm_compute; reflexivity. Qed.

Example trajectory_labels_with_singleton :
  (@best_partition Fixture.utils CPython 0 0 (of_int 5) (of_int 5) false true
     (of_int 300) (of_int 86400) euclidean false 2 [Fixture.trajectory]).1
  = Ok (LabelArray [0; 0; 0; -1; 1; 1; 0; 0]%Z).
Proof. vm_compute; reflexivity. Qed.

Lemma C1_witness :
  ∃ labels h',
    @best_partition Fixture.utils CPython 0 0 (of_int 5) (of_int 5) false true
      (of_int 300) (of_int 86400) euclidean false 2 [Fixture.trajectory]
      = (Ok (LabelArray labels), h') ∧
    length labels = 8.
Proof.
  eapply (@C1_one_label_per_sample Fixture.utils CPython 0 0 Fixture.trajectory).
  - reflexivity.
  - vm_compute; reflexivity.
  - vm_compute; reflexivity.
  - vm_compute; reflexivity.
  - reflexivity.
  - by_computation.
  - vm_compute; reflexivity.
  - reflexivity.
  - by_computation.
  - vm_compute; reflexivity.
  - by_computation.
Defined.

Lemma C2_witness :
  ∃ m labels h',
    py_max [0%Z; 0%Z] = Ok m ∧
    @run_infomap Fixture.utils CPython 0 (of_int 5) 0
      (mk_ndarray 2 [Fixture.point 0 0; Fixture.point 900 0; Fixture.point 1 1])
      euclidean [0; 0; 0; -1; 1; 1; 2; 2]%Z false false false (of_int 86400)
      [Fixture.trajectory]
      = (Ok (LabelArray labels), h') ∧
    labels = [0; 0; 0; -1; -1; -1; 0; 0]%Z.
Proof.
  edestruct (@C2_label_lookup_total Fixture.utils CPython 0 (of_int 5) 0
               Fixture.trajectory
               (mk_ndarray 2 [Fixture.point 0 0; Fixture.point 900 0; Fixture.point 1 1])
               euclidean [0; 0; 0; -1; 1; 1; 2; 2]%Z false (of_int 86400)
               [Fixture.trajectory])
    as (m & labels & h' & Hm & Hrun & _).
  - reflexivity.
  - by_computation.
  - vm_compute; reflexivity.
  - reflexivity.
  - by_computation.
  - vm_compute; reflexivity.
  - by_computation.
  - exists m, labels, h'. split; [exact Hm|]. split; [exact Hrun|].
    vm_compute in Hrun. congruence.
Defined.

Lemma C3_witness :
  (@best_partition Fixture.utils CPython 0 0 (of_int 5) (of_int 1) false false
     (of_int 300) (of_int 86400) euclidean false 2 [Fixture.trajectory]).1
  = Raise insufficient_graph.
Proof.
  edestruct (@C3_no_edge_is_fatal Fixture.utils CPython 0 0 Fixture.trajectory
               (of_int 5) (of_int 1) false false (of_int 300) (of_int 86400)
               euclidean false 2 [Fixture.trajectory]) as [[_ Hraise] _].
  - reflexivity.
  - vm_compute; reflexivity.
  - vm_compute; reflexivity.
  - vm_compute; reflexivity.
  - vm_compute; reflexivity.
  - reflexivity.
  - apply fixture_helpers_return.
  - apply Hraise. intros Hsome.
    apply (proximity_edges_nil (of_int 1) 3) in Hsome; [done|reflexivity|].
    vm_compute; reflexivity.
Defined.

Lemma C4_witness :
  ∃ final,
    label_singletons Fixture.nine_partition (@py_set_difference CPython 9 Fixture.nine_nodes) = Ok final ∧
    @numbered_in_iteration_order (@py_set_difference CPython 9 Fixture.nine_nodes) 0 final.
Proof.
  destruct (@C4_singletons_get_fresh_ids Fixture.utils CPython 0 9 Fixture.nine_nodes
              [(0, 2); (2, 3); (3, 4); (4, 5); (5, 6); (6, 7)] Fixture.nine_partition)
    as (m & final & Hm & Hfinal & _ & _ & Hnum & _).
  - apply cpython_set_iter_sound.
  - vm_compute; reflexivity.
  - by_computation.
  - exists final. split; [exact Hfinal|].
    vm_compute in Hm. injection Hm as <-. exact Hnum.
Defined.

(** C4, as stated, fails under CPython. Of the two singletons of the nine
    stops, the set yields event 8 before event 1, so that event 8 receives
    the first fresh id and event 1 the second; in event-index order event 1
    would receive the first. *)
Lemma C4_counterexample :
  @py_set_difference CPython 9 Fixture.nine_nodes = [8; 1] ∧
  ∃ final,
    label_singletons Fixture.nine_partition (@py_set_difference CPython 9 Fixture.nine_nodes) = Ok final ∧
    final !! 1 = Some 2%Z ∧ final !! 8 = Some 1%Z ∧
    ¬ numbered_in_event_order 9 Fixture.nine_nodes 0 final.
Proof.
  split; [vm_compute; reflexivity|].
  eexists. split; [vm_compute; reflexivity|].
  split; [vm_compute; reflexivity|]. split; [vm_compute; reflexivity|].
  intros Hnum. specialize (Hnum 0 1 eq_refl). vm_compute in Hnum. discriminate.
Qed.

(** The same run from end to end: the labels of the nine events. *)
Example nine_stops_medoid_labels :
  (@best_partition Fixture.utils CPython 0 0 (of_int 5) (of_int 15) true true
     (of_int 300) (of_int 86400) euclidean false 2 [Fixture.nine_stops]).1
  = Ok (LabelArray [0; 2; 0; 0; 0; 0; 0; 0; 1]%Z).
Proof. vm_compute; reflexivity. Qed.

Lemma C5_witness :
  ∃ D, (@build_graph CPython (of_int 5) 3 [of_int 900; of_int 2; of_int 900] []).1
       = Ok ([(0, 2)], [0; 2], [1]) ∧
       (@build_graph CPython (of_int 5) 3 [of_int 900; of_int 2; of_int 900] []).2 = [D] ∧
       get2 D 1 1 = NaN.
Proof.
  destruct (@C5_proximity_graph_edges CPython (of_int 5) 3
              [of_int 900; of_int 2; of_int 900] [])
    as (edges & nodes & singles & D & Hrun & _ & _ & _ & _ & Hnan).
  - reflexivity.
  - exists D. rewrite Hrun. split; [|split; [reflexivity|apply Hnan; lia]].
    simpl. vm_compute in Hrun. congruence.
Defined.

Lemma C6_witness :
  is_raise (validate (mk_ndarray 2 [Fixture.point 91 0]) haversine) ∧
  ¬ preconditions (mk_ndarray 2 [Fixture.point 91 0]) haversine.
Proof.
  destruct (@C6_preconditions_checked Fixture.utils CPython 0 0
              (mk_ndarray 2 [Fixture.point 91 0]) (of_int 5) (of_int 5) false false
              (of_int 300) (of_int 86400) haversine false 2
              [mk_ndarray 2 [Fixture.point 91 0]]) as [Hiff _].
  - reflexivity.
  - by left.
  - assert (is_raise (validate (mk_ndarray 2 [Fixture.point 91 0]) haversine)) as Hr.
    { eexists. vm_compute. reflexivity. }
    split; [exact Hr|]. by apply Hiff.
Defined.

(** C6, as stated, fails on a trajectory without samples under the
    haversine metric: no precondition is violated (there are two columns
    and no coordinate at all), yet the latitude check raises, because
    [np.min] has nothing to reduce. *)
Lemma C6_counterexample :
  preconditions (mk_ndarray 2 []) haversine ∧
  validate (mk_ndarray 2 []) haversine = Raise ValueError ∧
  ¬ (is_raise (validate (mk_ndarray 2 []) haversine) ↔
     ¬ preconditions (mk_ndarray 2 []) haversine).
Proof.
  assert (preconditions (mk_ndarray 2 []) haversine) as Hpre.
  { split; [by left|]. split; [done|]. intros _. split; constructor. }
  split; [exact Hpre|]. split; [reflexivity|].
  intros [Hraise _]. apply Hraise; [|exact Hpre]. by exists ValueError.
Qed.

Lemma C7_witness :
  (@best_partition Fixture.utils CPython 0 0 (of_int 5) (of_int 5) true true
     (of_int 300) (of_int 86400) euclidean false 2 [Fixture.trajectory]).1
  = Ok (LabelArray [0; 1; 0]%Z) ∧
  (@best_partition Fixture.utils CPython 0 0 (of_int 5) (of_int 5) true true
     (of_int 300) (of_int 86400) euclidean true 2 [Fixture.trajectory]).1
  = Ok (LabelArray [0; 1; 0]%Z).
Proof.
  edestruct (@C7_medoid_mode_takes_precedence Fixture.utils CPython 0 0
               Fixture.trajectory (of_int 5) (of_int 5) true (of_int 300)
               (of_int 86400) euclidean 2 [Fixture.trajectory])
    as (m & labels & Hm & Hrun & _ & _).
  - reflexivity.
  - vm_compute; reflexivity.
  - vm_compute; reflexivity.
  - vm_compute; reflexivity.
  - vm_compute; reflexivity.
  - reflexivity.
  - by_computation.
  - vm_compute; reflexivity.
  - intros Hempty. vm_compute in Hempty. discriminate.
  - assert (labels = [0; 1; 0]%Z) as ->.
    { specialize (Hrun false). vm_compute in Hrun. congruence. }
    split; by rewrite Hrun.
Defined.

Lemma C8_witness :
  ∃ a' h',
    @run_infomap Fixture.utils CPython 0 (of_int 5) 0
      (mk_ndarray 2 [Fixture.point 0 0; Fixture.point 900 0; Fixture.point 1 1])
      euclidean [0; 0; 0; -1; 1; 1; 2; 2]%Z false false true (of_int 86400)
      [Fixture.trajectory]
    = (Intervals <$> Fixture.fx_compute_intervals a'
                       [0; 0; 0; -1; -1; -1; 0; 0]%Z (of_int 86400), h') ∧
    ncols a' = 3 ∧
    col 2 a' = of_int <$> [0; 1; 2; 3; 4; 5; 6; 7]%Z.
Proof.
  edestruct (@C8_ordinal_timestamps Fixture.utils CPython 0 (of_int 5) 0
               Fixture.trajectory
               (mk_ndarray 2 [Fixture.point 0 0; Fixture.point 900 0; Fixture.point 1 1])
               euclidean [0; 0; 0; -1; 1; 1; 2; 2]%Z false (of_int 86400)
               [Fixture.trajectory])
    as (a' & h' & Hrun & Hcols & _ & _ & Hrows).
  - reflexivity.
  - by left.
  - vm_compute; reflexivity.
  - reflexivity.
  - by_computation.
  - vm_compute; reflexivity.
  - vm_compute; reflexivity.
  - exists a', h'. split; [exact Hrun|]. split; [exact Hcols|].
    destruct (Hrows eq_refl) as [Hr _]. unfold col. rewrite Hr.
    vm_compute. reflexivity.
Defined.

Lemma C9_witness :
  (@best_partition (Fixture.utils_with Fixture.fx_general_pdist Fixture.seeded_oracle)
     CPython 0 0 (of_int 5) (of_int 5) false true
     (of_int 300) (of_int 86400) euclidean true 2 [Fixture.trajectory]).1 =
  (@best_partition (Fixture.utils_with Fixture.fx_general_pdist Fixture.seeded_oracle)
     CPython 1 1 (of_int 5) (of_int 5) false true
     (of_int 300) (of_int 86400) euclidean true 2
     [Fixture.nine_stops; Fixture.trajectory]).1.
Proof.
  apply (@C9_deterministic
           (Fixture.utils_with Fixture.fx_general_pdist Fixture.seeded_oracle)
           CPython CPython 0 1 0 1 Fixture.trajectory).
  - reflexivity.
  - reflexivity.
  - intros nodes edges. reflexivity.
  - intros _ l. reflexivity.
Defined.

(** Neither assumption can be dropped. An oracle that answers otherwise
    in another state changes the labels. *)
Example oracle_state_matters :
  (@best_partition (Fixture.utils_with Fixture.fx_general_pdist Fixture.seeded_oracle)
     CPython 0 0 (of_int 5) (of_int 5) false false
     (of_int 300) (of_int 86400) euclidean false 2 [Fixture.trajectory]).1 ≠
  (@best_partition (Fixture.utils_with Fixture.fx_general_pdist Fixture.seeded_oracle)
     CPython 2 0 (of_int 5) (of_int 5) false false
     (of_int 300) (of_int 86400) euclidean false 2 [Fixture.trajectory]).1.
Proof. vm_compute. discriminate. Qed.

(** And with [label_singleton], so does another order of set iteration:
    the two singletons of the nine stops exchange their ids. *)
Example set_order_matters :
  (@best_partition Fixture.utils CPython 0 0 (of_int 5) (of_int 15) true true
     (of_int 300) (of_int 86400) euclidean false 2 [Fixture.nine_stops]).1
  = Ok (LabelArray [0; 2; 0; 0; 0; 0; 0; 0; 1]%Z) ∧
  (@best_partition Fixture.utils Fixture.insertion_ordered 0 0 (of_int 5) (of_int 15)
     true true (of_int 300) (of_int 86400) euclidean false 2 [Fixture.nine_stops]).1
  = Ok (LabelArray [0; 1; 0; 0; 0; 0; 0; 0; 2]%Z).
Proof. split; vm_compute; reflexivity. Qed.

Lemma C10_witness :
  (@best_partition Fixture.utils CPython 0 0 (of_int 5) (of_int 5) false true
     (of_int 300) (of_int 86400) euclidean true 2 [Fixture.trajectory]).2 !! 0
  = Some Fixture.trajectory.
Proof.
  destruct (@C10_input_not_mutated Fixture.utils CPython 0 0 (of_int 5) (of_int 5)
              false true (of_int 300) (of_int 86400) euclidean true 2
              [Fixture.trajectory] Fixture.trajectory) as [Hcoords _].
  - reflexivity.
  - exact Hcoords.
Defined.

(** * Further properties of [detect.py] *)

(** ** Which assertion fails *)

Lemma bounds_check_cases v lo hi :
  v ≠ [] →
  bounds_check v lo hi = Ok tt ∨ bounds_check v lo hi = Raise (AssertionError "").
Proof.
  destruct v as [|x xs]; [done|]. intros _. unfold bounds_check.
  cbn [np_min np_max mbind result_bind].
  destruct (f_ltb (of_int lo) _); cbn [py_assert mbind result_bind]; [|by right].
  destruct (f_ltb _ (of_int hi)); [by left|by right].
Qed.

Lemma guarded_bounds_check v lo hi msg :
  v ≠ [] →
  (Forall (in_open_range lo hi) v ∧
   except_AssertionError (bounds_check v lo hi) msg = Ok tt) ∨
  (¬ Forall (in_open_range lo hi) v ∧
   except_AssertionError (bounds_check v lo hi) msg = Raise (AssertionError msg)).
Proof.
  intros Hv. pose proof (bounds_check_ok v lo hi Hv) as Hok.
  destruct (bounds_check_cases v lo hi Hv) as [H|H]; rewrite H.
  - left. split; [by apply Hok|done].
  - right. split; [|done]. intros Hall. apply Hok in Hall. congruence.
Qed.

Lemma timestamp_check a :
  ncols a = 3 →
  (nondecreasing (col 2 a) ∧
   (ts ← column 2 a;
    except_AssertionError
      (py_assert (np_all (zip_with f_leb (removelast ts) (tail ts))))
      "Timestamps must be ordered") = Ok tt) ∨
  (¬ nondecreasing (col 2 a) ∧
   (ts ← column 2 a;
    except_AssertionError
      (py_assert (np_all (zip_with f_leb (removelast ts) (tail ts))))
      "Timestamps must be ordered") = Raise (AssertionError "Timestamps must be ordered")).
Proof.
  intros H3. unfold column. rewrite decide_True by lia. cbn [mbind result_bind].
  pose proof (np_all_adjacent (col 2 a)) as Hadj.
  destruct (np_all _); cbn [py_assert except_AssertionError].
  - left. split; [by apply Hadj|done].
  - right. split; [|done]. intros Hnd. apply Hadj in Hnd. done.
Qed.

(** Every way [validate] can end, with the condition that leads there. *)
Lemma validate_cases a df :
  let columns := ncols a = 2 ∨ ncols a = 3 in
  let ordered := ncols a = 3 → nondecreasing (col 2 a) in
  let latitudes := Forall (in_open_range (-90) 90) (col 0 a) in
  let longitudes := Forall (in_open_range (-180) 180) (col 1 a) in
  (¬ columns ∧
   validate a df = Raise (AssertionError "Number of columns must be 2 or 3")) ∨
  (columns ∧ ¬ ordered ∧
   validate a df = Raise (AssertionError "Timestamps must be ordered")) ∨
  (columns ∧ ordered ∧ df ≠ haversine ∧ validate a df = Ok tt) ∨
  (columns ∧ ordered ∧ df = haversine ∧ rows a = [] ∧
   validate a df = Raise ValueError) ∨
  (columns ∧ ordered ∧ df = haversine ∧ rows a ≠ [] ∧ ¬ latitudes ∧
   validate a df =
   Raise (AssertionError "Column 0 (latitude) must have values between -90 and 90")) ∨
  (columns ∧ ordered ∧ df = haversine ∧ rows a ≠ [] ∧ latitudes ∧ ¬ longitudes ∧
   validate a df =
   Raise (AssertionError "Column 1 (longitude) must have values between -180 and 180")) ∨
  (columns ∧ ordered ∧ df = haversine ∧ rows a ≠ [] ∧ latitudes ∧ longitudes ∧
   validate a df = Ok tt).
Proof.
  cbv zeta. unfold validate.
  destruct (decide (ncols a = 2 ∨ ncols a = 3)) as [Hn|Hn].
  2:{ left. split; [done|]. rewrite bool_decide_eq_false_2; [done|].
      intros Hin. by apply two_or_three in Hin. }
  right. rewrite bool_decide_eq_true_2 by (by apply two_or_three).
  cbn [py_assert except_AssertionError mbind result_bind].
  assert ((ncols a = 3 → nondecreasing (col 2 a)) ∧
          (if decide (ncols a = 3)
           then ts ← column 2 a;
                except_AssertionError
                  (py_assert (np_all (zip_with f_leb (removelast ts) (tail ts))))
                  "Timestamps must be ordered"
           else Ok tt) = Ok tt ∨
          ¬ (ncols a = 3 → nondecreasing (col 2 a)) ∧
          (if decide (ncols a = 3)
           then ts ← column 2 a;
                except_AssertionError
                  (py_assert (np_all (zip_with f_leb (removelast ts) (tail ts))))
                  "Timestamps must be ordered"
           else Ok tt) = Raise (AssertionError "Timestamps must be ordered")) as Hts.
  { destruct (decide (ncols a = 3)) as [H3|H3]; [|by left].
    destruct (timestamp_check a H3) as [[Hnd ->]|[Hnd ->]]; [by left|right].
    split; [|done]. intros H. by apply Hnd, H. }
  destruct Hts as [[Hord ->]|[Hord ->]]; cbn [mbind result_bind].
  2:{ left. done. }
  right. destruct df as [| |id]; cbn [is_haversine]; [|by left|by left].
  right. unfold column. rewrite !decide_True by lia.
  cbn [mbind result_bind].
  destruct (rows a) as [|r rs] eqn:Hrows.
  { left. repeat split; try done. unfold col. by rewrite Hrows. }
  right.
  assert (col 0 a ≠ [] ∧ col 1 a ≠ []) as [H0 H1].
  { unfold col. by rewrite Hrows. }
  destruct (guarded_bounds_check (col 0 a) (-90) 90
    "Column 0 (latitude) must have values between -90 and 90" H0) as [[Hlat ->]|[Hlat ->]];
    cbn [mbind result_bind].
  2:{ left. done. }
  right.
  destruct (guarded_bounds_check (col 1 a) (-180) 180
    "Column 1 (longitude) must have values between -180 and 180" H1) as [[Hlon ->]|[Hlon ->]].
  - right. done.
  - left. done.
Qed.

(** Reads one equivalence off [validate_cases]: in each case the outcome
    and the conditions either agree with both sides or refute both. *)
Ltac by_validate_cases a df :=
  destruct (validate_cases a df)
    as [(? & ->)|[(? & ? & ->)|[(? & ? & ? & ->)|[(? & ? & ? & ? & ->)|
        [(? & ? & ? & ? & ? & ->)|[(? & ? & ? & ? & ? & ? & ->)|
         (? & ? & ? & ? & ? & ? & ->)]]]]]];
  subst; repeat split; intros; try done; try tauto; try congruence.

(** X1. The column count is checked first and on its own: [validate]
    raises "Number of columns must be 2 or 3" exactly when the array has
    neither 2 nor 3 columns, whatever its rows and the metric. *)
Theorem X1_column_count_error a df :
  validate a df = Raise (AssertionError "Number of columns must be 2 or 3") ↔
  ¬ (ncols a = 2 ∨ ncols a = 3).
Proof. by_validate_cases a df. Qed.

(** X2. With three columns the timestamps are checked before any
    coordinate and for every metric: [validate] raises "Timestamps must be
    ordered" exactly when two consecutive timestamps fail [<=], which a
    NaN timestamp always does. *)
Theorem X2_timestamp_error a df :
  ncols a = 3 →
  validate a df = Raise (AssertionError "Timestamps must be ordered") ↔
  ¬ nondecreasing (col 2 a).
Proof. intros H3. by_validate_cases a df. Qed.

(** X3. Under the haversine metric, on an input with at least one sample
    that passes the two earlier checks, a latitude out of range is
    reported before any longitude: the latitude message is raised exactly
    when some latitude is out of range, the longitude message exactly when
    every latitude is in range and some longitude is not. *)
Theorem X3_latitude_before_longitude a :
  rows a ≠ [] →
  ncols a = 2 ∨ ncols a = 3 →
  (ncols a = 3 → nondecreasing (col 2 a)) →
  (validate a haversine =
     Raise (AssertionError "Column 0 (latitude) must have values between -90 and 90")
   ↔ ¬ Forall (in_open_range (-90) 90) (col 0 a)) ∧
  (validate a haversine =
     Raise (AssertionError "Column 1 (longitude) must have values between -180 and 180")
   ↔ Forall (in_open_range (-90) 90) (col 0 a) ∧
     ¬ Forall (in_open_range (-180) 180) (col 1 a)).
Proof. intros Hrows Hcols Hord. by_validate_cases a haversine. Qed.

Section validation.
Context `{U : Utils} `{R : PyRuntime}.

(** X4. A trajectory without samples under the haversine metric ends in
    numpy's ValueError, not in one of the four assertion messages: the
    column and timestamp checks pass on it, and the latitude check has
    nothing to take the minimum of. Nothing else is done. *)
Theorem X4_empty_trajectory_haversine w coords a r1 r2 rm ls mst mtb ri min_size h :
  h !! coords = Some a →
  rows a = [] →
  ncols a = 2 ∨ ncols a = 3 →
  best_partition w coords r1 r2 rm ls mst mtb haversine ri min_size h
  = (Raise ValueError, h).
Proof.
  intros Ha Hrows Hcols.
  rewrite (best_partition_eval _ _ _ _ _ _ _ _ _ _ _ _ _ Ha).
  assert (ncols a = 3 → nondecreasing (col 2 a)) as Hord.
  { intros _ i x y. unfold col. rewrite Hrows. simpl. by rewrite lookup_nil. }
  assert (validate a haversine = Raise ValueError) as ->; [|done].
  by_validate_cases a haversine.
Qed.

End validation.

(** ** The graph *)

Lemma np_where_lt_nil a r :
  (∀ i j, f_ltb (get2 a i j) r = false) → np_where_lt a r = [].
Proof.
  intros Hall. destruct (np_where_lt a r) as [|[i j] l] eqn:He; [done|].
  assert ((i, j) ∈ np_where_lt a r) as Hin by (rewrite He; apply list_elem_of_here).
  apply elem_of_np_where_lt in Hin as (_ & _ & Hlt). by rewrite Hall in Hlt.
Qed.

Lemma triu_indices_small c k : c ≤ k → np_triu_indices c k = [].
Proof.
  intros Hc. destruct (np_triu_indices c k) as [|[i j] l] eqn:He; [done|].
  assert ((i, j) ∈ np_triu_indices c k) as Hin by (rewrite He; apply list_elem_of_here).
  apply elem_of_triu in Hin. lia.
Qed.

Lemma length_triu_from n : ∀ m a,
  a + m = n →
  2 * length (i ← seq a m; j ← seq (i + 1) (n - (i + 1)); [(i, j)]) = m * (m - 1).
Proof.
  induction m as [|m IH]; intros a Ham; [done|].
  cbn [seq]. rewrite bind_cons, length_app.
  pose proof (IH (S a) ltac:(lia)) as Hrest.
  assert (length (j ← seq (a + 1) (n - (a + 1)); [(a, j)]) = m) as ->.
  { replace (n - (a + 1)) with m by lia. clear. generalize (a + 1).
    induction m as [|m' IHm]; intros b; [done|].
    cbn [seq]. rewrite bind_cons. simpl. by rewrite IHm. }
  destruct m; simpl in *; lia.
Qed.

Lemma length_triu c : 2 * length (np_triu_indices c 1) = c * (c - 1).
Proof. unfold np_triu_indices. by apply length_triu_from. Qed.

Lemma f_ltb_leb_trans x y z : f_ltb x y = true → f_leb y z = true → f_ltb x z = true.
Proof.
  destruct x, y, z; simpl; try done;
    repeat (match goal with
            | |- context [(?p ?= ?q)%Q] => destruct (Qcompare_spec p q)
            end; simpl); try done; lra.
Qed.

Lemma setitem2_dims a n idx vals a' :
  has_dims a n (ncols a) → setitem2 a idx vals = Ok a' →
  has_dims a' n (ncols a) ∧ ncols a' = ncols a.
Proof.
  intros Ha. unfold setitem2. destruct (decide _).
  - intros [= <-]. split; [by apply (has_dims_write _ a)|apply ncols_write].
  - destruct vals as [|v [|]]; try done.
    intros [= <-]. split; [by apply (has_dims_write _ a)|apply ncols_write].
Qed.

Lemma StronglySorted_insert_unique n l :
  StronglySorted lt l → StronglySorted lt (insert_unique n l).
Proof.
  induction 1 as [|m l Hl IH Hm]; simpl; [repeat constructor|].
  destruct (Nat.ltb_spec n m).
  - constructor; [by constructor|]. constructor; [done|].
    eapply Forall_impl; [exact Hm|]. intros; simpl in *; lia.
  - destruct (Nat.eqb_spec n m); [by constructor|].
    constructor; [done|]. apply Forall_forall. intros x Hx.
    apply elem_of_insert_unique in Hx as [->|Hx]; [lia|].
    rewrite Forall_forall in Hm. by apply Hm.
Qed.

Lemma StronglySorted_np_unique l : StronglySorted lt (np_unique l).
Proof.
  unfold np_unique. induction l; simpl; [constructor|].
  by apply StronglySorted_insert_unique.
Qed.

Lemma NoDup_np_unique l : NoDup (np_unique l).
Proof.
  pose proof (StronglySorted_np_unique l) as Hs.
  induction Hs as [|x k _ IH Hx]; constructor; [|done].
  intros Hin. rewrite Forall_forall in Hx. specialize (Hx _ Hin). lia.
Qed.

Lemma setitem2_triu_outside c pd D i j :
  setitem2 (np_full_nan c c) (np_triu_indices c 1) pd = Ok D →
  ¬ i < j < c → get2 D i j = NaN.
Proof.
  intros HD Hij.
  assert (∀ vals, get2 (write (np_full_nan c c) (zip (np_triu_indices c 1) vals)) i j = NaN)
    as Hwrite.
  { intros vals. rewrite get2_write_notin; [apply get2_full_nan|].
    intros Hin. apply list_elem_of_fmap in Hin as ([[i' j'] v] & [= <- <-] & Hin).
    apply elem_of_zip_l, elem_of_triu in Hin. lia. }
  unfold setitem2 in HD. destruct (decide _).
  - injection HD as <-. apply Hwrite.
  - destruct pd as [|v [|]]; try done. injection HD as <-. apply Hwrite.
Qed.

Lemma setitem2_triu_dims c pd D :
  setitem2 (np_full_nan c c) (np_triu_indices c 1) pd = Ok D →
  shape0 D = c ∧ ncols D = c.
Proof.
  intros HD.
  destruct (setitem2_dims (np_full_nan c c) c _ _ _ (has_dims_full_nan c c) HD)
    as [[Hn _] Hm]. done.
Qed.

Section graph_properties.
Context `{U : Utils} `{R : PyRuntime}.

Lemma build_graph_inv r2 c pd h edges nodes singles h' :
  build_graph r2 c pd h = (Ok (edges, nodes, singles), h') →
  ∃ D, setitem2 (np_full_nan c c) (np_triu_indices c 1) pd = Ok D ∧
       edges = np_where_lt D r2 ∧
       nodes = np_unique (flatten edges) ∧
       singles = py_set_difference c nodes ∧
       h' = h ++ [D].
Proof.
  rewrite build_graph_eval. destruct (setitem2 _ _ _) as [D|e]; [|done].
  cbv zeta. intros [= <- <- <- <-]. by exists D.
Qed.

Lemma run_infomap_cases w r2 coords ev df em ls rm ri mtb h :
  run_infomap w r2 coords ev df em ls rm ri mtb h =
  match general_pdist ev df with
  | Raise e => (Raise e, h)
  | Ok pd =>
      match build_graph r2 (shape0 ev) pd h with
      | (Raise e, h') => (Raise e, h')
      | (Ok (edges, nodes, singles), h') =>
          if decide (edges = []) then (Raise insufficient_graph, h')
          else
            match infer_labels w nodes edges singles (shape0 ev) ls with
            | Raise e => (Raise e, h')
            | Ok labels =>
                if rm then (Ok (LabelArray labels), h')
                else postprocess coords labels em ri mtb h'
            end
      end
  end.
Proof.
  unfold run_infomap. rewrite bind_lift.
  destruct (general_pdist ev df) as [pd|]; [|done].
  rewrite bind_eval.
  destruct (build_graph _ _ _ _) as [[[[edges nodes] singles]|e] h']; [|done].
  destruct edges as [|e edges].
  - rewrite decide_True by (simpl; lia). by rewrite decide_True.
  - rewrite decide_False by (simpl; lia). rewrite decide_False by done.
    rewrite bind_lift. destruct (infer_labels _ _ _ _ _ _); [|done]. by destruct rm.
Qed.

(** X5. With fewer than two stationary events there is no pair to link:
    whatever [r2] is, the run ends in the no-edge exception (here
    [general_pdist] has returned at most one value, as it does for no
    pair). *)
Theorem X5_fewer_than_two_events w r2 coords ev df em ls rm ri mtb h pd :
  shape0 ev ≤ 1 →
  general_pdist ev df = Ok pd →
  length pd ≤ 1 →
  run_infomap w r2 coords ev df em ls rm ri mtb h
  = (Raise insufficient_graph, h ++ [np_full_nan (shape0 ev) (shape0 ev)]).
Proof.
  intros Hc Hpd Hlen. rewrite run_infomap_cases, Hpd, build_graph_eval.
  rewrite (triu_indices_small _ 1) by done.
  assert (setitem2 (np_full_nan (shape0 ev) (shape0 ev)) [] pd
          = Ok (np_full_nan (shape0 ev) (shape0 ev))) as ->.
  { destruct pd as [|v [|]]; [done|done|simpl in Hlen; lia]. }
  cbv zeta. rewrite np_where_lt_nil; [done|].
  intros i j. by rewrite get2_full_nan.
Qed.

(** X6. [D] has room for [c (c - 1) / 2] distances. When [general_pdist]
    returns another number of values, and not a single one (which numpy
    would broadcast), the assignment into [D] raises ValueError and the
    run ends there, before any edge is looked for. *)
Theorem X6_distance_count_mismatch w r2 coords ev df em ls rm ri mtb h pd :
  general_pdist ev df = Ok pd →
  2 * length pd ≠ shape0 ev * (shape0 ev - 1) →
  length pd ≠ 1 →
  run_infomap w r2 coords ev df em ls rm ri mtb h
  = (Raise ValueError, h ++ [np_full_nan (shape0 ev) (shape0 ev)]).
Proof.
  intros Hpd Hlen H1. rewrite run_infomap_cases, Hpd, build_graph_eval.
  pose proof (length_triu (shape0 ev)) as Htriu.
  unfold setitem2. rewrite decide_False by lia.
  by destruct pd as [|v [|]].
Qed.

(** X7. Whatever [general_pdist] returns, a graph that is built has its
    edges inside the strict upper triangle: every edge joins two distinct
    events [i < j < c], no edge occurs twice, and there are at most
    [c (c - 1) / 2] of them. *)
Theorem X7_edges_in_upper_triangle r2 c pd h edges nodes singles h' :
  build_graph r2 c pd h = (Ok (edges, nodes, singles), h') →
  (∀ i j, (i, j) ∈ edges → i < j < c) ∧
  NoDup edges ∧
  2 * length edges ≤ c * (c - 1).
Proof.
  intros Hrun. apply build_graph_inv in Hrun as (D & HD & -> & _ & _ & _).
  assert (∀ i j, (i, j) ∈ np_where_lt D r2 → i < j < c) as Hlt.
  { intros i j Hin. apply elem_of_np_where_lt in Hin as (_ & _ & Hin).
    destruct (decide (i < j < c)) as [|Hij]; [done|].
    by rewrite (setitem2_triu_outside _ _ _ _ _ HD Hij) in Hin. }
  split; [done|]. split; [apply NoDup_np_where_lt|].
  rewrite <- length_triu. apply Nat.mul_le_mono_l, submseteq_length.
  apply NoDup_submseteq; [apply NoDup_np_where_lt|].
  intros [i j] Hin. apply elem_of_triu. apply Hlt in Hin. lia.
Qed.

(** X8. Raising [r2] can only add edges: on the same distances, every
    edge of the graph at [r2] is an edge at any [r2' >= r2], every
    connected node stays connected, and every singleton at [r2'] was one
    at [r2]. *)
Theorem X8_graph_grows_with_r2 r2 r2' c pd h edges nodes singles h1 edges' nodes' singles' h2 :
  set_iter_sound →
  f_leb r2 r2' = true →
  build_graph r2 c pd h = (Ok (edges, nodes, singles), h1) →
  build_graph r2' c pd h = (Ok (edges', nodes', singles'), h2) →
  (∀ e, e ∈ edges → e ∈ edges') ∧
  (∀ n, n ∈ nodes → n ∈ nodes') ∧
  (∀ n, n ∈ singles' → n ∈ singles).
Proof.
  intros Hset Hle H1 H2.
  apply build_graph_inv in H1 as (D & HD & -> & -> & -> & _).
  apply build_graph_inv in H2 as (D' & HD' & -> & -> & -> & _).
  assert (D' = D) as -> by congruence.
  assert (∀ e, e ∈ np_where_lt D r2 → e ∈ np_where_lt D r2') as Hedges.
  { intros [i j]. rewrite !elem_of_np_where_lt. intros (Hi & Hj & Hlt).
    repeat split; [done|done|]. by eapply f_ltb_leb_trans. }
  assert (∀ n, n ∈ np_unique (flatten (np_where_lt D r2)) →
               n ∈ np_unique (flatten (np_where_lt D r2'))) as Hnodes.
  { intros n. rewrite !elem_of_np_unique, !elem_of_flatten.
    intros (i & j & Hin & Hn). exists i, j. split; [by apply Hedges|done]. }
  split; [done|]. split; [done|].
  intros n. rewrite !(elem_of_py_set_difference Hset). intros [Hc Hn].
  split; [done|]. intros Hin. by apply Hn, Hnodes.
Qed.

(** X9. The nodes handed to the oracle and the singleton set split the
    events between them: the nodes are the end points of the edges, in
    increasing order and without repetition; the singletons are the other
    events below [c], each once; together they are all [c] events. *)
Theorem X9_nodes_and_singletons r2 c pd h edges nodes singles h' :
  set_iter_sound →
  build_graph r2 c pd h = (Ok (edges, nodes, singles), h') →
  (∀ n, n ∈ nodes ↔ ∃ i j, (i, j) ∈ edges ∧ (n = i ∨ n = j)) ∧
  StronglySorted lt nodes ∧
  NoDup singles ∧
  (∀ n, n < c ↔ n ∈ nodes ∨ n ∈ singles) ∧
  (∀ n, n ∈ nodes → n ∉ singles) ∧
  length nodes + length singles = c.
Proof.
  intros Hset Hrun.
  apply build_graph_inv in Hrun as (D & HD & -> & -> & -> & _).
  destruct (setitem2_triu_dims _ _ _ HD) as [Hshape Hcols].
  set (nodes := np_unique (flatten (np_where_lt D r2))).
  assert (∀ n, n ∈ nodes → n < c) as Hbound.
  { intros n Hn. apply elem_of_np_unique, elem_of_flatten in Hn as (i & j & Hin & Hn).
    apply elem_of_np_where_lt in Hin as (Hi & Hj & _). lia. }
  split; [intros n; subst nodes; by rewrite elem_of_np_unique, elem_of_flatten|].
  split; [apply StronglySorted_np_unique|].
  split; [by apply NoDup_py_set_difference|].
  split; [|split].
  - intros n. rewrite (elem_of_py_set_difference Hset). split.
    + intros Hn. destruct (decide (n ∈ nodes)); [by left|by right].
    + intros [Hn|[Hn _]]; [by apply Hbound|done].
  - intros n Hn. rewrite (elem_of_py_set_difference Hset). tauto.
  - transitivity (length (seq 0 c)); [|apply length_seq].
    rewrite <- length_app. apply Permutation_length. unfold py_set_difference. rewrite (Hset _).
    etransitivity; [|apply (filter_app_complement (λ n, n ∈ nodes))].
    apply Permutation_app.
    + apply NoDup_Permutation; [apply NoDup_np_unique|apply NoDup_filter, NoDup_seq|].
      intros n. rewrite list_elem_of_filter, elem_of_seq. split; [|tauto].
      intros Hn. split; [done|]. apply Hbound in Hn. lia.
    + apply NoDup_Permutation; [apply NoDup_filter, NoDup_seq..|].
      intros n. by rewrite !list_elem_of_filter.
Qed.

End graph_properties.

(** ** Labels *)

Lemma py_getitem_ok_iff {A} (l : list A) i x :
  py_getitem l i = Ok x ↔
  ((0 ≤ i)%Z ∧ l !! Z.to_nat i = Some x) ∨
  ((i < 0)%Z ∧ (0 ≤ i + Z.of_nat (length l))%Z ∧
   l !! Z.to_nat (i + Z.of_nat (length l)) = Some x).
Proof.
  unfold py_getitem. destruct (Z.ltb_spec i 0) as [Hneg|Hpos].
  - destruct (Z.leb_spec 0 (i + Z.of_nat (length l))),
      (Z.ltb_spec (i + Z.of_nat (length l)) (Z.of_nat (length l))); simpl;
      try (split; [done|intros [[? _]|(_ & ? & _)]; lia]).
    destruct (l !! _) as [y|] eqn:Hy.
    + split; [intros [= ->]; right; done|].
      intros [[? _]|(_ & _ & [= ->])]; [lia|done].
    + split; [done|]. intros [[? _]|(_ & _ & ?)]; [lia|done].
  - destruct (Z.leb_spec 0 i), (Z.ltb_spec i (Z.of_nat (length l))); simpl;
      try lia.
    + destruct (l !! _) as [y|] eqn:Hy.
      * split; [intros [= ->]; left; done|].
        intros [[_ [= ->]]|(? & _)]; [done|lia].
      * split; [done|]. intros [[_ ?]|(? & _)]; [done|lia].
    + split; [done|]. intros [[_ Hx]|(? & _)]; [|lia].
      apply lookup_lt_Some in Hx. lia.
Qed.

Lemma py_getitem_raise_iff {A} (l : list A) i :
  py_getitem l i = Raise IndexError ↔
  (i < - Z.of_nat (length l) ∨ Z.of_nat (length l) ≤ i)%Z.
Proof.
  split.
  - intros Hraise.
    destruct (decide (i < - Z.of_nat (length l) ∨ Z.of_nat (length l) ≤ i)%Z)
      as [|Hin]; [done|exfalso].
    destruct (Z.ltb_spec i 0) as [Hneg|Hpos].
    + destruct (lookup_lt_is_Some_2 l (Z.to_nat (i + Z.of_nat (length l)))) as [x Hx];
        [lia|].
      assert (py_getitem l i = Ok x) as Hok
        by (apply py_getitem_ok_iff; right; repeat split; [done|lia|done]).
      congruence.
    + destruct (lookup_lt_is_Some_2 l (Z.to_nat i)) as [x Hx]; [lia|].
      assert (py_getitem l i = Ok x) as Hok
        by (apply py_getitem_ok_iff; left; done).
      congruence.
  - intros Hout. destruct (py_getitem l i) as [x|e] eqn:Hget.
    + apply py_getitem_ok_iff in Hget as [[? Hx]|(? & ? & Hx)];
        apply lookup_lt_Some in Hx; lia.
    + by apply py_getitem_raise in Hget as ->.
Qed.

Lemma mapM_ok_lookup {A B} (f : A → result B) l ys :
  mapM f l = Ok ys →
  length ys = length l ∧
  ∀ i x, l !! i = Some x → ∃ y, ys !! i = Some y ∧ f x = Ok y.
Proof.
  revert ys. induction l as [|x l IH]; intros ys.
  { intros [= <-]. split; [done|]. intros i x. by rewrite lookup_nil. }
  cbn [mapM mbind result_bind]. destruct (f x) as [y|] eqn:Hx; [|done].
  destruct (mapM f l) as [ys'|]; [|done]. intros [= <-].
  destruct (IH ys' eq_refl) as [Hlen Hlook]. split; [simpl; by rewrite Hlen|].
  intros [|i] x'; simpl; [intros [= <-]; eauto|apply Hlook].
Qed.

Lemma mapM_ok_or_raise {A B} (f : A → result B) l :
  (∃ ys, mapM f l = Ok ys) ∨ (∃ x e, x ∈ l ∧ f x = Raise e).
Proof.
  induction l as [|x l IH]; [left; by exists []|].
  cbn [mapM mbind result_bind]. destruct (f x) as [y|e] eqn:Hx.
  - destruct IH as [[ys ->]|(x' & e & Hin & Hx')].
    + left. by eexists.
    + right. exists x', e. split; [by apply list_elem_of_further|done].
  - right. exists x, e. split; [apply list_elem_of_here|done].
Qed.

Lemma oracle_contract_dom nodes (partition : gmap nat Z) n :
  oracle_contract nodes partition → is_Some (partition !! n) ↔ n ∈ nodes.
Proof.
  intros [Hdom _]. rewrite <- elem_of_dom, Hdom. apply elem_of_list_to_set.
Qed.

(** X10. Line 145 raises IndexError, and no label is returned, exactly
    when some EventMap entry lies outside [-(c + 1) .. c]: the appended
    sentinel widens the valid index range of the [c] event labels by one
    on either side. *)
Theorem X10_projection_index_error labels event_map :
  project_labels labels event_map = Raise IndexError ↔
  ∃ e, e ∈ event_map ∧
       (e < - (Z.of_nat (length labels) + 1) ∨ Z.of_nat (length labels) < e)%Z.
Proof.
  unfold project_labels. split.
  - intros Hraise. apply mapM_raise in Hraise as (e & Hin & He).
    exists e. split; [done|]. apply py_getitem_raise_iff in He.
    rewrite length_app in He. simpl in He. lia.
  - intros (e & Hin & Hout).
    destruct (mapM_ok_or_raise (py_getitem (labels ++ [(-1)%Z])) event_map)
      as [[ys Hok]|(x & e' & Hx & Hraise)].
    + apply mapM_ok_lookup in Hok as [_ Hlook].
      apply list_elem_of_lookup in Hin as [i Hi].
      destruct (Hlook _ _ Hi) as (y & _ & Hy).
      assert (py_getitem (labels ++ [(-1)%Z]) e = Raise IndexError) as Hr.
      { apply py_getitem_raise_iff. rewrite length_app. simpl. lia. }
      congruence.
    + destruct (mapM (py_getitem (labels ++ [(-1)%Z])) event_map) as [ys|e''] eqn:Hm.
      * apply mapM_ok_lookup in Hm as [_ Hlook].
        apply list_elem_of_lookup in Hx as [i Hi].
        destruct (Hlook _ _ Hi) as (y & _ & Hy). congruence.
      * f_equal. apply mapM_raise in Hm as (x' & _ & Hx').
        by eapply py_getitem_raise.
Qed.

(** X11. When line 145 succeeds, an EventMap entry [e] is resolved by
    Python's indexing of [labels + [-1]]: an event index gives that
    event's label, both [-1] and [c] give the sentinel, and an entry
    from [-(c + 1)] to [-2] wraps around to the label of event
    [c + 1 + e]. *)
Theorem X11_projection_wraps_around labels event_map coord_labels s e :
  project_labels labels event_map = Ok coord_labels →
  event_map !! s = Some e →
  let c := Z.of_nat (length labels) in
  ((0 ≤ e < c)%Z → coord_labels !! s = labels !! Z.to_nat e) ∧
  (e = (-1)%Z ∨ e = c → coord_labels !! s = Some (-1)%Z) ∧
  ((- (c + 1) ≤ e < -1)%Z → coord_labels !! s = labels !! Z.to_nat (c + 1 + e)).
Proof.
  intros Hok Hs c. unfold project_labels in Hok.
  apply mapM_ok_lookup in Hok as [_ Hlook].
  destruct (Hlook _ _ Hs) as (y & -> & Hy).
  apply py_getitem_ok_iff in Hy. rewrite length_app in Hy. simpl in Hy.
  replace (Z.of_nat (length labels + 1)) with (c + 1)%Z in Hy by lia.
  split; [|split].
  - intros He. destruct Hy as [[_ Hy]|[? _]]; [|lia].
    rewrite lookup_app_l in Hy by lia. done.
  - intros [He|He]; subst e.
    + destruct Hy as [[? _]|(_ & _ & Hy)]; [lia|].
      replace (Z.to_nat (-1 + (c + 1))) with (length labels) in Hy by lia.
      by rewrite list_lookup_middle in Hy.
    + destruct Hy as [[_ Hy]|(? & _)]; [|lia]. subst c.
      rewrite Nat2Z.id in Hy. by rewrite list_lookup_middle in Hy.
  - intros He. destruct Hy as [[? _]|(_ & _ & Hy)]; [lia|].
    rewrite lookup_app_l in Hy by lia. rewrite <- Hy. f_equal. lia.
Qed.

Section label_properties.
Context `{U : Utils} `{R : PyRuntime}.

Lemma postprocess_labels coords labels em mtb h coord_labels :
  project_labels labels em = Ok coord_labels →
  postprocess coords labels em false mtb h = (Ok (LabelArray coord_labels), h).
Proof. intros Hp. unfold postprocess. by rewrite bind_lift, Hp. Qed.

Lemma postprocess_labels_inv coords labels em mtb h coord_labels h' :
  postprocess coords labels em false mtb h = (Ok (LabelArray coord_labels), h') →
  project_labels labels em = Ok coord_labels.
Proof.
  unfold postprocess. rewrite bind_lift.
  destruct (project_labels labels em); [|done]. by intros [= ->].
Qed.

(** X12. Which samples end up as outliers. On a run with an edge whose
    oracle keeps its contract, a sample is labelled -1 exactly when its
    EventMap entry is the sentinel or, with [label_singleton] false, its
    event has no edge. With [label_singleton] true only the sentinel
    entries are outliers. *)
Theorem X12_outliers w r2 coords ev df em ls mtb h pd edges nodes singles h'
    (partition : gmap nat Z) :
  set_iter_sound →
  valid_event_map (shape0 ev) em →
  general_pdist ev df = Ok pd →
  build_graph r2 (shape0 ev) pd h = (Ok (edges, nodes, singles), h') →
  edges ≠ [] →
  infomap_communities w nodes edges = Ok partition →
  oracle_contract nodes partition →
  ∃ labels,
    run_infomap w r2 coords ev df em ls false false mtb h
      = (Ok (LabelArray labels), h') ∧
    ∀ s e, em !! s = Some e →
      (labels !! s = Some (-1)%Z ↔
       e = (-1)%Z ∨ (ls = false ∧ Z.to_nat e ∉ nodes)).
Proof.
  intros Hset Hvalid Hpd Hgraph Hedges Horacle Hcontract.
  pose proof Hgraph as Hinv.
  apply build_graph_inv in Hinv as (D & HD & He & Hn & Hs & Hh).
  assert (partition ≠ ∅) as Hne.
  { eapply oracle_contract_nonempty; [done|]. intros Hnil. subst nodes.
    by apply flatten_nil_inv in Hnil. }
  destruct (infer_labels_ok w nodes edges singles (shape0 ev) ls _ Horacle Hne)
    as (m & Hm & Hlabels).
  set (final := final_partition ls partition singles m) in *.
  exists (sample_label final <$> em). split.
  { rewrite run_infomap_cases, Hpd, Hgraph. rewrite decide_False by done.
    rewrite Hlabels. by apply postprocess_labels, project_labels_ok. }
  intros s e Hse. rewrite list_lookup_fmap, Hse. simpl.
  unfold valid_event_map in Hvalid. rewrite Forall_lookup in Hvalid.
  specialize (Hvalid _ _ Hse). simpl in Hvalid.
  unfold sample_label. destruct (decide (e = (-1)%Z)) as [->|Hsent].
  { split; [by left|done]. }
  destruct Hvalid as [|Hrange]; [done|].
  assert (∀ v, final !! Z.to_nat e = Some v → (0 ≤ v)%Z) as Hpos.
  { intros v. by apply (final_partition_nonneg ls nodes partition singles m). }
  assert (Z.to_nat e ∈ singles ↔ Z.to_nat e ∉ nodes) as Hsingle.
  { rewrite Hs, (elem_of_py_set_difference Hset). split; [tauto|].
    intros ?. split; [lia|done]. }
  destruct (decide (Z.to_nat e ∈ nodes)) as [Hin|Hout].
  - assert (∃ v, final !! Z.to_nat e = Some v) as [v Hv].
    { pose proof Hin as Hdom.
      apply (oracle_contract_dom _ _ _ Hcontract) in Hdom as [v Hv]. exists v.
      subst final. destruct ls; cbn [final_partition]; [|done].
      rewrite relabelled_other; [done|]. rewrite Hsingle. tauto. }
    rewrite Hv. simpl. specialize (Hpos _ Hv). split.
    + intros [= ->]. lia.
    + intros [|[_ ?]]; done.
  - destruct ls; subst final; cbn [final_partition] in *.
    + apply Hsingle, list_elem_of_lookup in Hout as [k Hk].
      pose proof (relabelled_singleton partition singles m) as Hnum.
      rewrite (Hnum (ltac:(rewrite Hs; by apply NoDup_py_set_difference)) _ _ Hk).
      rewrite (Hnum (ltac:(rewrite Hs; by apply NoDup_py_set_difference)) _ _ Hk) in Hpos.
      simpl. specialize (Hpos _ eq_refl). split.
      * intros [= Heq]. lia.
      * intros [|[? _]]; done.
    + assert (partition !! Z.to_nat e = None) as ->.
      { apply eq_None_not_Some. by rewrite (oracle_contract_dom _ _ _ Hcontract). }
      simpl. split; [by right|done].
Qed.

Lemma event_labels_empty c : event_labels ∅ c = replicate c (-1)%Z.
Proof.
  unfold event_labels. generalize 0. induction c as [|c IH]; intros a; [done|].
  simpl. rewrite lookup_empty. simpl. f_equal. apply IH.
Qed.

(** X13. When the oracle returns no community at all for a graph with an
    edge, [label_singleton] decides between failure and silence: with it,
    [max] of the empty partition raises ValueError; without it the run
    succeeds and every event is labelled -1. *)
Theorem X13_empty_partition w r2 coords ev df em ls ri mtb h pd edges nodes singles h' :
  general_pdist ev df = Ok pd →
  build_graph r2 (shape0 ev) pd h = (Ok (edges, nodes, singles), h') →
  edges ≠ [] →
  infomap_communities w nodes edges = Ok ∅ →
  run_infomap w r2 coords ev df em ls true ri mtb h =
  if ls then (Raise ValueError, h')
  else (Ok (LabelArray (replicate (shape0 ev) (-1)%Z)), h').
Proof.
  intros Hpd Hgraph Hedges Horacle.
  rewrite run_infomap_cases, Hpd, Hgraph. rewrite decide_False by done.
  unfold infer_labels. rewrite Horacle. cbn [mbind result_bind].
  destruct ls.
  - unfold label_singletons. by rewrite map_to_list_empty.
  - cbn [mbind result_bind mret result_ret]. by rewrite event_labels_empty.
Qed.

(** X14. The two resolutions agree: when the same call succeeds with
    [return_medoid_labels] true and false, the label of a sample is the
    label of its event in the medoid vector, and -1 for the sentinel. *)
Theorem X14_samples_follow_events w r2 coords ev df em ls ri mtb h
    medoid_labels sample_labels h1 h2 :
  run_infomap w r2 coords ev df em ls true ri mtb h
    = (Ok (LabelArray medoid_labels), h1) →
  run_infomap w r2 coords ev df em ls false false mtb h
    = (Ok (LabelArray sample_labels), h2) →
  length sample_labels = length em ∧
  ∀ s e, em !! s = Some e →
    (e = (-1)%Z → sample_labels !! s = Some (-1)%Z) ∧
    ((0 ≤ e < Z.of_nat (length medoid_labels))%Z →
       sample_labels !! s = medoid_labels !! Z.to_nat e).
Proof.
  rewrite !run_infomap_cases.
  destruct (general_pdist ev df) as [pd|]; [|done].
  destruct (build_graph _ _ _ _) as [[[[edges nodes] singles]|] h']; [|done].
  destruct (decide (edges = [])); [done|].
  destruct (infer_labels _ _ _ _ _ _) as [labels|]; [|done].
  intros [= <- <-] Hsample. apply postprocess_labels_inv in Hsample.
  pose proof Hsample as Hlook. unfold project_labels in Hlook.
  apply mapM_ok_lookup in Hlook as [Hlen Hlook]. split; [done|].
  intros s e Hse. destruct (Hlook _ _ Hse) as (y & -> & Hy).
  apply py_getitem_ok_iff in Hy. rewrite length_app in Hy. simpl in Hy. split.
  - intros ->. destruct Hy as [[? _]|(_ & _ & Hy)]; [lia|].
    replace (Z.to_nat (-1 + Z.of_nat (length labels + 1))) with (length labels) in Hy
      by lia.
    by rewrite list_lookup_middle in Hy.
  - intros He. destruct Hy as [[_ Hy]|[? _]]; [|lia].
    rewrite lookup_app_l in Hy by lia. done.
Qed.

(** X15. Intervals are computed from the very labels that the label mode
    returns: when the call with [return_intervals] false returns the label
    array [l], the call with [return_intervals] true returns what
    [compute_intervals] makes of [l] and of the caller's array, to which a
    column of timestamps is added first when it has two columns. *)
Theorem X15_intervals_from_labels w r2 coords a ev df em ls mtb h labels h1 :
  h !! coords = Some a →
  run_infomap w r2 coords ev df em ls false false mtb h
    = (Ok (LabelArray labels), h1) →
  let timed :=
    if decide (ncols a = 2)
    then np_hstack_column a (map (λ k, of_int (Z.of_nat k)) (seq 0 (shape0 a)))
    else a in
  (run_infomap w r2 coords ev df em ls false true mtb h).1
  = Intervals <$> compute_intervals timed labels mtb.
Proof.
  intros Ha. rewrite !run_infomap_cases.
  destruct (general_pdist ev df) as [pd|]; [|done].
  destruct (build_graph r2 (shape0 ev) pd h) as [[[[edges nodes] singles]|] h'] eqn:Hg;
    [|done].
  destruct (decide (edges = [])); [done|].
  destruct (infer_labels _ _ _ _ _ _) as [per_event|]; [|done].
  intros Hsample. apply postprocess_labels_inv in Hsample. cbv zeta.
  destruct (preserves_heap_build_graph r2 (shape0 ev) pd h) as [k Hk].
  rewrite Hg in Hk. simpl in Hk. subst h'.
  erewrite postprocess_eval; [|by apply lookup_app_l_Some|done].
  by destruct (decide (ncols a = 2)).
Qed.

End label_properties.

Section broadcast.
Context `{R : PyRuntime}.

(** X16. A single distance is not rejected but broadcast: when
    [general_pdist] returns one value for a number of events other than
    two, the graph is built all the same, and every pair of events is
    given that distance, so that the graph is complete when the value is
    below [r2] and has no edge otherwise. *)
Theorem X16_single_distance_is_broadcast r2 c d h :
  c ≠ 2 →
  ∃ edges nodes singles D,
    build_graph r2 c [d] h = (Ok (edges, nodes, singles), h ++ [D]) ∧
    ∀ i j, (i, j) ∈ edges ↔ i < j < c ∧ f_ltb d r2 = true.
Proof.
  intros Hc.
  assert (length (np_triu_indices c 1) ≠ 1) as Hlen.
  { pose proof (length_triu c). nia. }
  rewrite build_graph_eval. unfold setitem2.
  rewrite decide_False by (simpl; lia). cbv zeta.
  set (idx := np_triu_indices c 1).
  set (D := foldl _ _ _).
  eexists _, _, _, D. split; [done|]. intros i j.
  assert (shape0 D = c ∧ ncols D = c) as [Hshape Hcols].
  { split; [apply (has_dims_write _ _ c c), has_dims_full_nan|].
    subst D. by rewrite (ncols_write _ (np_full_nan c c)). }
  assert (∀ i j, i < j < c → get2 D i j = d) as Hin.
  { intros i' j' Hij. apply (get2_write_in _ _ c c); [apply has_dims_full_nan| | |].
    - rewrite fst_zip by (by rewrite length_replicate). apply NoDup_triu.
    - apply Forall_forall. intros [[a b] v] Hv. simpl.
      apply elem_of_zip_l, elem_of_triu in Hv. lia.
    - assert ((i', j') ∈ idx) as Hidx by (apply elem_of_triu; lia).
      apply list_elem_of_lookup in Hidx as [k Hk].
      apply list_elem_of_lookup. exists k. apply lookup_zip_with_Some.
      eexists _, _. split; [done|]. split; [done|].
      apply lookup_replicate. split; [done|]. by eapply lookup_lt_Some. }
  assert (∀ i j, ¬ i < j < c → get2 D i j = NaN) as Hout.
  { intros i' j' Hij. subst D. rewrite (get2_write_notin _ (np_full_nan c c)).
    - apply get2_full_nan.
    - intros Hv. apply list_elem_of_fmap in Hv as ([[a b] v] & [= <- <-] & Hv).
      apply elem_of_zip_l, elem_of_triu in Hv. lia. }
  rewrite elem_of_np_where_lt, Hshape, Hcols.
  destruct (decide (i < j < c)) as [Hij|Hij].
  - rewrite (Hin _ _ Hij). split; [tauto|]. intros [_ Hd]. repeat split; [lia|lia|done].
  - rewrite (Hout _ _ Hij). split; [by intros (_ & _ & ?)|tauto].
Qed.

End broadcast.

(** ** These properties on runs of the model *)

Lemma X2_witness :
  validate (mk_ndarray 3 [[of_int 0; of_int 0; of_int 0];
                          [of_int 0; of_int 0; of_int 5];
                          [of_int 0; of_int 0; of_int 3]]) euclidean
  = Raise (AssertionError "Timestamps must be ordered").
Proof.
  apply X2_timestamp_error; [reflexivity|].
  intros Hord. specialize (Hord 1 (of_int 5) (of_int 3) eq_refl eq_refl).
  vm_compute in Hord. discriminate.
Defined.

Lemma X3_witness :
  validate (mk_ndarray 2 [Fixture.point 45 200]) haversine
  = Raise (AssertionError "Column 1 (longitude) must have values between -180 and 180").
Proof.
  apply X3_latitude_before_longitude.
  - discriminate.
  - by left.
  - discriminate.
  - split.
    + repeat constructor.
    + intros Hlon. inversion Hlon as [|x l [_ Hhi] _]. vm_compute in Hhi. discriminate.
Defined.

Lemma X4_witness :
  @best_partition Fixture.utils CPython 0 0 (of_int 5) (of_int 5) false false
    (of_int 300) (of_int 86400) haversine false 2 [mk_ndarray 3 []]
  = (Raise ValueError, [mk_ndarray 3 []]).
Proof.
  apply (@X4_empty_trajectory_haversine Fixture.utils CPython 0 0 (mk_ndarray 3 [])).
  - reflexivity.
  - reflexivity.
  - by right.
Defined.

Lemma X5_witness :
  @run_infomap Fixture.utils CPython 0 (of_int 1000) 0
    (mk_ndarray 2 [Fixture.point 0 0]) euclidean [0; 0]%Z false false false
    (of_int 86400) []
  = (Raise insufficient_graph, [np_full_nan 1 1]).
Proof.
  eapply (@X5_fewer_than_two_events Fixture.utils CPython).
  - vm_compute. lia.
  - vm_compute; reflexivity.
  - vm_compute. lia.
Defined.

Lemma X6_witness :
  @run_infomap (Fixture.utils_with Fixture.short_pdist Fixture.fx_infomap_communities)
    CPython 0 (of_int 5) 0 Fixture.three_stops euclidean Fixture.three_stops_map
    false false false (of_int 86400) []
  = (Raise ValueError, [np_full_nan 3 3]).
Proof.
  eapply (@X6_distance_count_mismatch
            (Fixture.utils_with Fixture.short_pdist Fixture.fx_infomap_communities)
            CPython).
  - vm_compute; reflexivity.
  - vm_compute. lia.
  - vm_compute. lia.
Defined.

Lemma X7_witness :
  (∀ i j, (i, j) ∈ [(0, 2)] → i < j < 3) ∧
  NoDup [(0, 2)] ∧
  2 * length [(0, 2)] ≤ 3 * (3 - 1).
Proof.
  eapply (X7_edges_in_upper_triangle (R := CPython) (of_int 5) 3
            [of_int 900; of_int 2; of_int 900] []).
  vm_compute; reflexivity.
Defined.

Lemma X8_witness :
  (∀ e, e ∈ [(0, 2)] → e ∈ [(0, 1); (0, 2); (1, 2)]) ∧
  (∀ n, n ∈ [0; 2] → n ∈ [0; 1; 2]) ∧
  (∀ n, n ∈ [] → n ∈ [1]).
Proof.
  eapply (X8_graph_grows_with_r2 (R := CPython) (of_int 5) (of_int 1000) 3
            [of_int 900; of_int 2; of_int 900] []).
  - apply cpython_set_iter_sound.
  - reflexivity.
  - vm_compute; reflexivity.
  - vm_compute; reflexivity.
Defined.

Lemma X9_witness :
  (∀ n, n ∈ [0; 2] ↔ ∃ i j, (i, j) ∈ [(0, 2)] ∧ (n = i ∨ n = j)) ∧
  StronglySorted lt [0; 2] ∧
  NoDup [1] ∧
  (∀ n, n < 3 ↔ n ∈ [0; 2] ∨ n ∈ [1]) ∧
  (∀ n, n ∈ [0; 2] → n ∉ [1]) ∧
  length [0; 2] + length [1] = 3.
Proof.
  eapply (X9_nodes_and_singletons (R := CPython) (of_int 5) 3
            [of_int 900; of_int 2; of_int 900] []).
  - apply cpython_set_iter_sound.
  - vm_compute; reflexivity.
Defined.

Lemma X11_witness :
  [9; -1]%Z !! 0 = [7; 8; 9]%Z !! Z.to_nat (3 + 1 + -2).
Proof.
  destruct (X11_projection_wraps_around [7; 8; 9]%Z [-2; 3]%Z [9; -1]%Z 0 (-2)%Z)
    as (_ & _ & Hwrap).
  - vm_compute; reflexivity.
  - reflexivity.
  - apply Hwrap. simpl. lia.
Defined.

Lemma X12_witness :
  ∃ labels,
    @run_infomap Fixture.utils CPython 0 (of_int 5) 0 Fixture.three_stops euclidean
      Fixture.three_stops_map false false false (of_int 86400) []
    = (Ok (LabelArray labels), [distance_matrix 3 [of_int 900; of_int 2; of_int 900]]) ∧
    labels !! 4 = Some (-1)%Z.
Proof.
  edestruct (@X12_outliers Fixture.utils CPython 0 (of_int 5) 0 Fixture.three_stops
               euclidean Fixture.three_stops_map false (of_int 86400) [])
    as (labels & Hrun & Hout).
  - apply cpython_set_iter_sound.
  - by_computation.
  - vm_compute; reflexivity.
  - vm_compute; reflexivity.
  - discriminate.
  - vm_compute; reflexivity.
  - by_computation.
  - exists labels. split; [exact Hrun|].
    apply (Hout 4 1%Z eq_refl). right. split; [reflexivity|].
    by_computation.
Defined.

Lemma X13_witness :
  @run_infomap (Fixture.utils_with Fixture.fx_general_pdist Fixture.silent_oracle)
    CPython 0 (of_int 5) 0 Fixture.three_stops euclidean Fixture.three_stops_map
    true true false (of_int 86400) []
  = (Raise ValueError, [distance_matrix 3 [of_int 900; of_int 2; of_int 900]]).
Proof.
  eapply (@X13_empty_partition
            (Fixture.utils_with Fixture.fx_general_pdist Fixture.silent_oracle)
            CPython 0 (of_int 5) 0 Fixture.three_stops euclidean
            Fixture.three_stops_map true false (of_int 86400) []).
  - vm_compute; reflexivity.
  - vm_compute; reflexivity.
  - discriminate.
  - reflexivity.
Defined.

Lemma X14_witness :
  length [0; 0; 0; -1; 1; 1; 0; 0]%Z = length Fixture.three_stops_map ∧
  ∀ s e, Fixture.three_stops_map !! s = Some e →
    (e = (-1)%Z → [0; 0; 0; -1; 1; 1; 0; 0]%Z !! s = Some (-1)%Z) ∧
    ((0 ≤ e < Z.of_nat (length [0; 1; 0]%Z))%Z →
       [0; 0; 0; -1; 1; 1; 0; 0]%Z !! s = [0; 1; 0]%Z !! Z.to_nat e).
Proof.
  eapply (@X14_samples_follow_events Fixture.utils CPython 0 (of_int 5) 0
            Fixture.three_stops euclidean Fixture.three_stops_map true false
            (of_int 86400) []).
  - vm_compute; reflexivity.
  - vm_compute; reflexivity.
Defined.

Lemma X15_witness :
  (@run_infomap Fixture.utils CPython 0 (of_int 5) 0 Fixture.three_stops euclidean
     Fixture.three_stops_map true false true (of_int 86400) [Fixture.trajectory]).1
  = Intervals <$>
      @compute_intervals Fixture.utils
        (np_hstack_column Fixture.trajectory
           (map (λ k, of_int (Z.of_nat k)) (seq 0 8)))
        [0; 0; 0; -1; 1; 1; 0; 0]%Z (of_int 86400).
Proof.
  eapply (@X15_intervals_from_labels Fixture.utils CPython 0 (of_int 5) 0
            Fixture.trajectory Fixture.three_stops euclidean Fixture.three_stops_map
            true (of_int 86400) [Fixture.trajectory]).
  - reflexivity.
  - vm_compute; reflexivity.
Defined.

Lemma X16_witness :
  ∃ D, @build_graph CPython (of_int 5) 3 [of_int 2] []
       = (Ok ([(0, 1); (0, 2); (1, 2)], [0; 1; 2], []), [D]).
Proof.
  destruct (X16_single_distance_is_broadcast (R := CPython) (of_int 5) 3 (of_int 2) [])
    as (edges & nodes & singles & D & Hrun & _).
  - lia.
  - exists D. rewrite Hrun. vm_compute in Hrun.
    injection Hrun as <- <- <- <-. reflexivity.
Defined.
